(** * telegram_scraper: the request-serialization queue of [src/app/scraper.py]

    A shallow embedding of [TelegramScraperQueue]: the two task bodies
    ([_get_today_messages], [_get_channel_id]) as functions of what the
    platform client answers, and the queue with its worker coroutine as a
    transition system whose steps are the runs of a coroutine between two
    of its [await] points. *)

From Stdlib Require Import ZArith Lia List String Ascii Bool Sorted.
From stdpp Require Import base option gmap strings list.

Local Open Scope Z_scope.

(** ** Python values, exceptions and results *)

(** The Python values that reach the modelled code: [None], booleans,
    integers and strings. *)
Inductive py_value :=
| PyNone
| PyBool (b : bool)
| PyInt (z : Z)
| PyStr (s : string).

(** Truth value testing, as used by [or]. *)
Definition truthy (v : py_value) : bool :=
  match v with
  | PyNone => false
  | PyBool b => b
  | PyInt z => negb (z =? 0)
  | PyStr s => negb (String.eqb s "")
  end.

(** [a or b]: [a] when it is truthy, otherwise [b] (whatever [b] is). *)
Definition py_or (a b : py_value) : py_value :=
  if truthy a then a else b.

(** Raised exceptions, split the way the [except] clauses of the source
    split them: instances of [Exception] (with class name and message),
    [asyncio.TimeoutError] (itself an [Exception]), [asyncio.CancelledError]
    and the other direct [BaseException]s ([KeyboardInterrupt], ...), which
    [except Exception] does not catch. *)
Inductive exn :=
| Exception (cls msg : string)
| TimeoutError
| CancelledError
| BaseException (cls : string).

Definition is_Exception (e : exn) : bool :=
  match e with
  | Exception _ _ | TimeoutError => true
  | CancelledError | BaseException _ => false
  end.

Definition is_TimeoutError (e : exn) : bool :=
  match e with TimeoutError => true | _ => false end.

Definition is_CancelledError (e : exn) : bool :=
  match e with CancelledError => true | _ => false end.

(** What a call produces: a value or a raised exception. *)
Inductive outcome (A : Type) :=
| Return (a : A)
| Raise (e : exn).
Arguments Return {A} a.
Arguments Raise {A} e.

#[global] Instance outcome_ret : MRet outcome := @Return.

#[global] Instance outcome_bind : MBind outcome := fun A B k m =>
  match m with
  | Return a => k a
  | Raise e => Raise e
  end.

(** [try: body  except Exception as e: handler e]. Exceptions outside
    [Exception] pass through. *)
Definition try_except_Exception {A} (body : outcome A)
    (handler : exn -> outcome A) : outcome A :=
  match body with
  | Return a => Return a
  | Raise e => if is_Exception e then handler e else Raise e
  end.

(** ** Decimal text of integers: [str(int)] and [int(str)] *)

Definition digit_char (d : Z) : ascii := ascii_of_nat (48 + Z.to_nat d).

Definition digit_of_char (c : ascii) : option Z :=
  let n := nat_of_ascii c in
  if ((48 <=? n) && (n <=? 57))%nat then Some (Z.of_nat n - 48) else None.

(** Digits of [n], least significant produced first and pushed in front of
    [acc]. [fuel] bounds the number of digits. *)
Fixpoint digits_from (fuel : nat) (n : Z) (acc : string) : string :=
  match fuel with
  | O => acc
  | S fuel' =>
      let acc' := String (digit_char (n mod 10)) acc in
      if n <? 10 then acc' else digits_from fuel' (n / 10) acc'
  end.

(** A number below [2^k] has at most [k] decimal digits. *)
Definition digits_of_nonneg (n : Z) : string :=
  digits_from (S (Z.to_nat (Z.log2 n))) n "".

(** [str(z)] for an integer. *)
Definition str_of_int (z : Z) : string :=
  if z <? 0 then String "-" (digits_of_nonneg (- z)) else digits_of_nonneg z.

(** [str(v)], which is what an f-string field [{v}] inserts. *)
Definition py_str (v : py_value) : string :=
  match v with
  | PyNone => "None"
  | PyBool true => "True"
  | PyBool false => "False"
  | PyInt z => str_of_int z
  | PyStr s => s
  end.

Fixpoint parse_digits (s : string) (acc : Z) : option Z :=
  match s with
  | EmptyString => Some acc
  | String c s' =>
      match digit_of_char c with
      | Some d => parse_digits s' (10 * acc + d)
      | None => None
      end
  end.

Definition ValueError_int (s : string) : exn :=
  Exception "ValueError"
    (String.append "invalid literal for int() with base 10: " s).

(** [int(s)] on an optional sign followed by one or more decimal digits;
    anything else raises [ValueError]. (Python also accepts surrounding
    white space and single underscores between digits; the only texts
    parsed here are "-100" followed by [str] of a value.) *)
Definition py_int (s : string) : outcome Z :=
  let unsigned (sign : Z) (ds : string) :=
    match ds with
    | EmptyString => Raise (ValueError_int s)
    | _ => match parse_digits ds 0 with
           | Some n => Return (sign * n)
           | None => Raise (ValueError_int s)
           end
    end in
  match s with
  | String "-" ds => unsigned (-1) ds
  | String "+" ds => unsigned 1 ds
  | _ => unsigned 1 s
  end.

(** ** The platform client as seen by the task bodies *)

(** A message as yielded by [client.iter_messages]: [text] may be [None];
    [date] is an aware UTC datetime, counted in microseconds. *)
Record message := {
  msg_id : Z;
  msg_text : option string;
  msg_date : Z
}.

(** One run of the asynchronous iterator: the messages it yields, in
    order, and how it ends when it is run to its end (normally, or by
    raising). The consumer may stop early. *)
Record iteration := {
  yielded : list message;
  failure : option exn
}.

(** A resolved entity: a Python object, given by its attributes. *)
Abbreviation entity := (gmap string py_value).

Definition hasattr (e : entity) (name : string) : bool :=
  bool_decide (is_Some (e !! name)).

Definition getattr (e : entity) (name : string) : outcome py_value :=
  match e !! name with
  | Some v => Return v
  | None => Raise (Exception "AttributeError" name)
  end.

(** The two primitives the task bodies call on the client, as what they
    answer to a given request. *)
Record TelegramClient := {
  iter_messages : py_value -> Z -> Z -> iteration;
      (* entity, limit, offset_date *)
  get_entity : string -> outcome entity
}.

(** ** [_get_today_messages] *)

Record channel_message := { id : Z; text : string }.

Record channel_meta := { channel_id : py_value; date : Z }.

Record channel_messages := {
  meta : channel_meta;
  messages : list channel_message
}.

(** [timedelta(hours=24)] in microseconds. *)
Definition hours_24 : Z := 24 * 3600 * 1000000.

(** The body of the [async for] loop over what the iterator yields;
    [acc] is [messages["messages"]] so far. *)
Fixpoint iterate (cutoff_time : Z) (ms : list message) (fin : option exn)
    (acc : list channel_message) : outcome (list channel_message) :=
  match ms with
  | [] => match fin with
          | None => Return acc
          | Some e => Raise e
          end
  | m :: rest =>
      if msg_date m <? cutoff_time then Return acc            (* break *)
      else match msg_text m with
           | None => iterate cutoff_time rest fin acc          (* continue *)
           | Some message_text =>
               if String.eqb message_text ""
               then iterate cutoff_time rest fin acc           (* continue *)
               else iterate cutoff_time rest fin
                      (acc ++ [ {| id := msg_id m; text := message_text |} ])
           end
  end.

(** [channel_entity = channel_name or channel_id]; an argument left at its
    default is [None]. *)
Definition channel_entity (channel_id : option Z)
    (channel_name : option string) : py_value :=
  py_or (from_option PyStr PyNone channel_name)
        (from_option PyInt PyNone channel_id).

(** [now k] is the [k]-th reading of [datetime.now(tz=timezone.utc)] made
    by the call: the cutoff, the snapshot date, the offset date. *)
Definition _get_today_messages (client : TelegramClient) (now : nat -> Z)
    (channel_id : option Z) (channel_name : option string)
    : outcome channel_messages :=
  let channel_entity := channel_entity channel_id channel_name in
  let cutoff_time := now 0%nat - hours_24 in
  let messages0 := {| channel_id := channel_entity; date := now 1%nat |} in
  try_except_Exception
    (let it := iter_messages client channel_entity 100 (now 2%nat) in
     msgs ← iterate cutoff_time (yielded it) (failure it) [];
     Return {| meta := messages0; messages := msgs |})
    (fun e => Raise e).                         (* logged, then [raise] *)

(** ** [_get_channel_id] *)

Definition _get_channel_id (client : TelegramClient) (channel : string)
    : outcome (py_value * py_value) :=
  try_except_Exception
    (entity ← get_entity client channel;
     channel_id ← getattr entity "id";
     username ← getattr entity "username";
     channel_id ←
       (if hasattr entity "megagroup" || hasattr entity "broadcast"
        then z ← py_int (String.append "-100" (py_str channel_id));
             Return (PyInt z)
        else Return channel_id);
     Return (channel_id, username))
    (fun e => Raise e).                         (* logged, then [raise] *)

(** ** Futures and queued tasks *)

Inductive task_result :=
| Messages (r : channel_messages)
| Channel (channel_id username : py_value).

(** An [asyncio.Future]: pending, or done with a result or an exception. *)
Inductive future_state :=
| Pending
| Result (v : task_result)
| Failure (e : exn).

(** [task_func] with its [args] and [kwargs], as the three public methods
    build them. *)
Inductive task_call :=
| Get_today_messages (channel_id : option Z) (channel_name : option string)
| Get_channel_id (channel : string).

Definition get_today_messages_by_id (channel_id : Z) : task_call :=
  Get_today_messages (Some channel_id) None.

Definition get_today_messages_by_name (channel_name : string) : task_call :=
  Get_today_messages None (Some channel_name).

Definition get_channel_id (channel : string) : task_call :=
  Get_channel_id channel.

(** A queue item [(task_func, args, kwargs, future)]; the future is named
    by its identity. *)
Record task := { call : task_call; future : nat }.

(** [await task_func(self.client, *args, **kwargs)], given what the client
    and the clock answer while it runs. *)
Definition run_task (client : TelegramClient) (now : nat -> Z)
    (c : task_call) : outcome task_result :=
  match c with
  | Get_today_messages channel_id channel_name =>
      r ← _get_today_messages client now channel_id channel_name;
      Return (Messages r)
  | Get_channel_id channel =>
      r ← _get_channel_id client channel;
      Return (Channel r.1 r.2)
  end.

(** ** The queue object and its coroutines *)

(** Where a coroutine running [_process_queue] is suspended. *)
Inductive worker :=
| Created                      (* [create_task] done, first step not yet run *)
| AwaitConnect (timeout : Z)   (* [await asyncio.wait_for(self.client.connect(), timeout)] *)
| AwaitSleep (delay : Z)       (* [await asyncio.sleep(delay)] *)
| AwaitGet                     (* [await self.queue.get()] on an empty queue *)
| AwaitTask (t : task)         (* [await task_func(self.client, ...)] *)
| Done (r : outcome unit).     (* returned, or ended by an exception *)

(** What is recorded of a run, to state orderings: puts, gets and
    resolutions of futures, oldest first. *)
Inductive obs :=
| Put (fut : nat)
| Got (fut : nat)
| Resolved (fut : nat).

Record state := {
  running : bool;                      (* [self.running] *)
  worker_task : option nat;            (* [self.worker_task]: index in [tasks] *)
  queue : list task;                   (* items of [self.queue], oldest first *)
  unfinished_tasks : nat;              (* [self.queue._unfinished_tasks] *)
  connected : bool;                    (* [self.client.is_connected()] *)
  futures : gmap nat future_state;     (* the futures created so far *)
  tasks : list worker;                 (* the worker coroutines created so far *)
  starting : list (option task_call);  (* calls suspended in
                                          [await self.client.start()]: from
                                          [start()] itself, or from
                                          [_enqueue_task] with its call *)
  history : list obs
}.

(** The state after [__init__]. *)
Definition init : state := {|
  running := false; worker_task := None; queue := []; unfinished_tasks := 0;
  connected := false; futures := ∅; tasks := []; starting := [];
  history := []
|}.

Definition with_running (b : bool) (s : state) : state :=
  {| running := b; worker_task := worker_task s; queue := queue s;
     unfinished_tasks := unfinished_tasks s; connected := connected s;
     futures := futures s; tasks := tasks s; starting := starting s;
     history := history s |}.

Definition with_worker_task (w : option nat) (s : state) : state :=
  {| running := running s; worker_task := w; queue := queue s;
     unfinished_tasks := unfinished_tasks s; connected := connected s;
     futures := futures s; tasks := tasks s; starting := starting s;
     history := history s |}.

Definition with_queue (q : list task) (s : state) : state :=
  {| running := running s; worker_task := worker_task s; queue := q;
     unfinished_tasks := unfinished_tasks s; connected := connected s;
     futures := futures s; tasks := tasks s; starting := starting s;
     history := history s |}.

Definition with_unfinished_tasks (n : nat) (s : state) : state :=
  {| running := running s; worker_task := worker_task s; queue := queue s;
     unfinished_tasks := n; connected := connected s;
     futures := futures s; tasks := tasks s; starting := starting s;
     history := history s |}.

Definition with_connected (b : bool) (s : state) : state :=
  {| running := running s; worker_task := worker_task s; queue := queue s;
     unfinished_tasks := unfinished_tasks s; connected := b;
     futures := futures s; tasks := tasks s; starting := starting s;
     history := history s |}.

Definition with_futures (fs : gmap nat future_state) (s : state) : state :=
  {| running := running s; worker_task := worker_task s; queue := queue s;
     unfinished_tasks := unfinished_tasks s; connected := connected s;
     futures := fs; tasks := tasks s; starting := starting s;
     history := history s |}.

Definition with_tasks (ws : list worker) (s : state) : state :=
  {| running := running s; worker_task := worker_task s; queue := queue s;
     unfinished_tasks := unfinished_tasks s; connected := connected s;
     futures := futures s; tasks := ws; starting := starting s;
     history := history s |}.

Definition with_starting (l : list (option task_call)) (s : state) : state :=
  {| running := running s; worker_task := worker_task s; queue := queue s;
     unfinished_tasks := unfinished_tasks s; connected := connected s;
     futures := futures s; tasks := tasks s; starting := l;
     history := history s |}.

Definition observe (o : obs) (s : state) : state :=
  {| running := running s; worker_task := worker_task s; queue := queue s;
     unfinished_tasks := unfinished_tasks s; connected := connected s;
     futures := futures s; tasks := tasks s; starting := starting s;
     history := history s ++ [o] |}.

(** *** Futures and the queue's counters *)

Definition InvalidStateError : exn :=
  Exception "InvalidStateError" "invalid state".

(** [future.set_result(v)]: only a pending future can be set. *)
Definition set_result (fut : nat) (v : task_result) (s : state)
    : state * outcome unit :=
  match futures s !! fut with
  | Some Pending =>
      (observe (Resolved fut) (with_futures (<[fut := Result v]> (futures s)) s),
       Return ())
  | _ => (s, Raise InvalidStateError)
  end.

(** [future.set_exception(e)]. *)
Definition set_exception (fut : nat) (e : exn) (s : state)
    : state * outcome unit :=
  match futures s !! fut with
  | Some Pending =>
      (observe (Resolved fut) (with_futures (<[fut := Failure e]> (futures s)) s),
       Return ())
  | _ => (s, Raise InvalidStateError)
  end.

(** [self.queue.task_done()]. *)
Definition task_done (s : state) : state * outcome unit :=
  match unfinished_tasks s with
  | O => (s, Raise (Exception "ValueError" "task_done() called too many times"))
  | S n => (with_unfinished_tasks n s, Return ())
  end.

(** [future = asyncio.Future(); await self.queue.put((task_func, args,
    kwargs, future))]: the queue is unbounded, so the put never waits. The
    new future gets an identity not yet in use. *)
Definition put (c : task_call) (s : state) : state :=
  let fut := fresh (dom (futures s)) in
  observe (Put fut)
    (with_unfinished_tasks (S (unfinished_tasks s))
       (with_queue (queue s ++ [ {| call := c; future := fut |} ])
          (with_futures (<[fut := Pending]> (futures s)) s))).

(** *** [_process_queue], one run between two suspensions at a time *)

(** From [task_func, args, kwargs, future = await self.queue.get()]: with
    an item at hand the get returns at once and the task call is awaited;
    on an empty queue the worker waits for a put. *)
Definition get_item (s : state) : state * worker :=
  match queue s with
  | [] => (s, AwaitGet)
  | t :: q => (observe (Got (future t)) (with_queue q s), AwaitTask t)
  end.

(** From [while self.running:] to the next suspension. *)
Definition loop_head (s : state) : state * worker :=
  if negb (running s) then (s, Done (Return ()))
  else if negb (connected s) then (s, AwaitConnect 10)
  else get_item s.

(** After [await asyncio.wait_for(self.client.connect(), timeout=10)]
    produced [r]. *)
Definition after_connect (r : outcome unit) (s : state) : state * worker :=
  match r with
  | Return _ => get_item (with_connected true s)
  | Raise e =>
      if is_TimeoutError e then (s, AwaitSleep 5)
      else if is_Exception e then (s, AwaitSleep 5)
      else (s, Done (Raise e))
  end.

(** The inner [try] once the awaited task call has produced [o]:
    [set_result] on success, [except Exception as e: set_exception(e)],
    [finally: task_done()]. *)
Definition settle (t : task) (o : outcome task_result) (s : state)
    : state * outcome unit :=
  let '(s1, r1) :=
    match o with
    | Return result => set_result (future t) result s
    | Raise e => (s, Raise e)
    end in
  let '(s2, r2) :=
    match r1 with
    | Return _ => (s1, Return ())
    | Raise e =>
        if is_Exception e then set_exception (future t) e s1
        else (s1, Raise e)
    end in
  let '(s3, r3) := task_done s2 in
  match r3 with
  | Return _ => (s3, r2)
  | Raise e => (s3, Raise e)
  end.

(** The outer [try] around it: [except asyncio.CancelledError: break],
    [except Exception] logs and the loop goes on; anything else ends the
    coroutine. *)
Definition after_task (t : task) (o : outcome task_result) (s : state)
    : state * worker :=
  let '(s', r) := settle t o s in
  match r with
  | Return _ => loop_head s'
  | Raise e =>
      if is_CancelledError e then (s', Done (Return ()))
      else if is_Exception e then loop_head s'
      else (s', Done (Raise e))
  end.

(** [CancelledError] thrown in at the point where the worker is suspended
    (the effect of [worker_task.cancel()]). Around the connect and the
    sleep nothing catches it. In [queue.get()] it is re-raised and caught
    by [except asyncio.CancelledError: break]. In a task call it is thrown
    into the task body, which lets it through. *)
Definition cancel (pc : worker) (s : state) : state * worker :=
  match pc with
  | Created | AwaitConnect _ | AwaitSleep _ => (s, Done (Raise CancelledError))
  | AwaitGet => (s, Done (Return ()))
  | AwaitTask t => after_task t (Raise CancelledError) s
  | Done r => (s, Done r)
  end.

(** What resumes a suspended worker. *)
Inductive wake :=
| Run                                   (* first step of a created task *)
| Connect_returns (r : outcome unit)    (* the bounded connect ended *)
| Slept                                 (* the sleep ended *)
| Woken                                 (* the getter was woken by a put *)
| Task_returns (client : TelegramClient) (now : nat -> Z).
                                        (* the task call ran to its end,
                                           the client and the clock
                                           answering as given *)

Definition resume (pc : worker) (i : wake) (s : state) : state * worker :=
  match pc, i with
  | Created, Run => loop_head s
  | AwaitConnect _, Connect_returns r => after_connect r s
  | AwaitSleep _, Slept => loop_head s
  | AwaitGet, Woken => get_item s
  | AwaitTask t, Task_returns client now =>
      after_task t (run_task client now (call t)) s
  | _, _ => (s, pc)
  end.

(** *** [start], [stop], [_enqueue_task] *)

(** [start()] after [await self.client.start()] returned: the client is
    connected, [running] is set and a new worker task is created. *)
Definition start_finish (s : state) : state :=
  with_tasks (tasks s ++ [Created])
    (with_worker_task (Some (length (tasks s)))
       (with_running true (with_connected true s))).

(** [stop()] up to [await self.worker_task]: the early return, then the
    flag and the cancellation of the worker named by [self.worker_task]. *)
Definition stop_cancel (s : state) : state :=
  if negb (running s) then s
  else
    let s1 := with_running false s in
    match worker_task s1 with
    | None => s1
    | Some w =>
        match tasks s1 !! w with
        | None => s1
        | Some pc =>
            let '(s2, pc') := cancel pc s1 in
            with_tasks (<[w := pc']> (tasks s2)) s2
        end
    end.

(** A whole call of [start()] that nothing else interleaves with;
    [r] is what [client.start()] produces. *)
Definition start (r : outcome unit) (s : state) : state * outcome unit :=
  if running s then (s, Return ())
  else match r with
       | Return _ => (start_finish s, Return ())
       | Raise e => (s, Raise e)
       end.

(** A whole call of [stop()] that nothing else interleaves with; [d] is
    what [client.disconnect()] produces. [await self.worker_task] re-raises
    what the worker ended with, except [CancelledError]. *)
Definition stop (d : outcome unit) (s : state) : state * outcome unit :=
  if negb (running s) then (s, Return ())
  else
    let s1 := stop_cancel s in
    let ended :=
      match worker_task s1 with
      | Some w =>
          match tasks s1 !! w with
          | Some (Done (Raise e)) =>
              if is_CancelledError e then Return () else Raise e
          | _ => Return ()
          end
      | None => Return ()
      end in
    match ended with
    | Raise e => (s1, Raise e)
    | Return _ =>
        match d with
        | Return _ => (with_connected false s1, Return ())
        | Raise e => (s1, Raise e)
        end
    end.

(** ** The system: what can happen next *)

Inductive event :=
| Call_start                       (* some coroutine calls [start()] *)
| Call_stop                        (* some coroutine calls [stop()] *)
| Call_enqueue (c : task_call)     (* a producer calls [_enqueue_task] *)
| Client_started (k : nat) (r : outcome unit)
                                   (* [client.start()] answers the [k]-th
                                      suspended call *)
| Client_disconnected              (* the connection is gone: dropped, or
                                      closed by a [stop()] in progress *)
| Worker (w : nat) (i : wake).     (* worker [w] is resumed *)

Definition step (s : state) (ev : event) : state :=
  match ev with
  | Call_start =>
      if running s then s else with_starting (starting s ++ [None]) s
  | Call_stop => stop_cancel s
  | Call_enqueue c =>
      if negb (running s) then with_starting (starting s ++ [Some c]) s
      else put c s
  | Client_started k r =>
      match starting s !! k with
      | None => s
      | Some caller =>
          let s1 := with_starting (delete k (starting s)) s in
          match r with
          | Raise _ => s1
          | Return _ =>
              let s2 := start_finish s1 in
              match caller with
              | None => s2
              | Some c => put c s2
              end
          end
      end
  | Client_disconnected => with_connected false s
  | Worker w i =>
      match tasks s !! w with
      | None => s
      | Some pc =>
          let '(s', pc') := resume pc i s in
          with_tasks (<[w := pc']> (tasks s')) s'
      end
  end.

Definition run (s : state) (evs : list event) : state := fold_left step evs s.

(** The order of puts, of gets and of resolutions in a history. *)
Definition puts (h : list obs) : list nat :=
  omap (fun o => match o with Put f => Some f | _ => None end) h.

Definition gots (h : list obs) : list nat :=
  omap (fun o => match o with Got f => Some f | _ => None end) h.

Definition resolutions (h : list obs) : list nat :=
  omap (fun o => match o with Resolved f => Some f | _ => None end) h.

(** ** Notions used to state the properties *)

(** The messages the loop of [_get_today_messages] looks at before its
    [break]: those yielded before the first one older than the cutoff. *)
Fixpoint recent (cutoff_time : Z) (ms : list message) : list message :=
  match ms with
  | [] => []
  | m :: rest =>
      if msg_date m <? cutoff_time then [] else m :: recent cutoff_time rest
  end.

(** Whether the loop meets a message older than the cutoff. *)
Definition breaks (cutoff_time : Z) (ms : list message) : bool :=
  existsb (fun m => msg_date m <? cutoff_time) ms.

(** The entry a message leaves in the result, if any. *)
Definition entry (m : message) : option channel_message :=
  match msg_text m with
  | None => None
  | Some t => if String.eqb t "" then None
              else Some {| id := msg_id m; text := t |}
  end.

(** The number of decimal digits of a number that is not negative. *)
Definition digits_count (n : Z) : Z :=
  Z.of_nat (String.length (digits_of_nonneg n)).

(** The test [_get_channel_id] makes on the resolved entity. *)
Definition channel_like (e : entity) : bool :=
  hasattr e "megagroup" || hasattr e "broadcast".

(** A run of failing connects of worker [w]: each attempt ends with one of
    [errors] and is followed by the end of the sleep. *)
Fixpoint failed_connects (w : nat) (errors : list exn) : list event :=
  match errors with
  | [] => []
  | e :: errors' =>
      Worker w (Connect_returns (Raise e)) :: Worker w Slept
        :: failed_connects w errors'
  end.

(** Whether a worker has ended. *)
Definition ended (pc : worker) : bool :=
  match pc with Done _ => true | _ => false end.

(** The futures of the tasks the workers are executing. *)
Definition in_flight (ws : list worker) : list nat :=
  omap (fun pc => match pc with
                  | AwaitTask t => Some (future t)
                  | _ => None
                  end) ws.

(** A pending future that is neither in the queue nor in flight. *)
Definition abandoned (f : nat) (s : state) : Prop :=
  futures s !! f = Some Pending
  /\ (f ∉ future <$> queue s)
  /\ (f ∉ in_flight (tasks s)).

(** What a run of a worker between two suspensions keeps of a future [f]
    that is pending and not in the queue. *)
Definition keeps_abandoned (f : nat) (s : state) (r : state * worker) : Prop :=
  futures r.1 !! f = Some Pending
  /\ (f ∉ future <$> queue r.1)
  /\ tasks r.1 = tasks s
  /\ (forall t, r.2 = AwaitTask t -> future t <> f).

(** The future of the task a worker is executing, if it is executing one. *)
Definition executing (pc : worker) : list nat :=
  match pc with
  | AwaitTask t => [future t]
  | _ => []
  end.

(** The bookkeeping that ties the queue, its counter, the futures and the
    history together; [live] are the futures of the tasks being executed. *)
Definition consistent (live : list nat) (s : state) : Prop :=
  let waiting := (future <$> queue s) ++ live in
  gots (history s) ++ (future <$> queue s) = puts (history s)
  /\ unfinished_tasks s = length waiting
  /\ NoDup waiting
  /\ (forall f, f ∈ waiting -> futures s !! f = Some Pending)
  /\ NoDup (resolutions (history s))
  /\ (forall f, f ∈ resolutions (history s) ->
        exists st, futures s !! f = Some st /\ st <> Pending).

Definition sound (s : state) : Prop := consistent (in_flight (tasks s)) s.

(** The state a future is left in by the outcome of its task. *)
Definition delivered (o : outcome task_result) : future_state :=
  match o with
  | Return v => Result v
  | Raise e => if is_Exception e then Failure e else Pending
  end.

(** [m'] keeps every future that is done in [m] as it is. *)
Definition keeps_done (m m' : gmap nat future_state) : Prop :=
  forall f st, m !! f = Some st -> st <> Pending -> m' !! f = Some st.

(** No two calls of [start()] overlap along the events [evs] run from [s]:
    at every moment at most one call is suspended in [client.start()]. *)
Fixpoint serial_starts (s : state) (evs : list event) : Prop :=
  (length (starting s) <= 1)%nat
  /\ match evs with
     | [] => True
     | ev :: evs' => serial_starts (step s ev) evs'
     end.

(** At most the worker named by [worker_task] is alive, and none is while
    the queue is not running. *)
Definition single_worker (s : state) : Prop :=
  (starting s <> [] -> running s = false)
  /\ (forall w pc, tasks s !! w = Some pc -> worker_task s <> Some w ->
        ended pc = true)
  /\ (running s = false -> forall w pc, tasks s !! w = Some pc ->
        ended pc = true).

(** The resolutions follow the order of the gets; [live] are the futures
    taken and still being executed. *)
Definition in_order (live : list nat) (s : state) : Prop :=
  exists finished,
    gots (history s) = finished ++ live
    /\ resolutions (history s) `sublist_of` finished.

(** The messages come newest first. *)
Definition descending (ms : list message) : Prop :=
  StronglySorted (fun a b => msg_date b <= msg_date a) ms.

(** ** Clients, clocks and runs used in the examples *)

(** A clock that stands still at 2023-11-14 22:13:20 UTC. *)
Definition example_now : nat -> Z := fun _ => 1700000000000000.

Definition hour : Z := 3600 * 1000000.

Definition no_entity : string -> outcome entity :=
  fun _ => Raise (Exception "ValueError" "no such entity").

(** The iterator yields three messages dated now, now-1h and now-25h. *)
Definition scenario_messages : list message :=
  [ {| msg_id := 30; msg_text := Some "newest"; msg_date := example_now 0%nat |};
    {| msg_id := 29; msg_text := Some "an hour ago";
       msg_date := example_now 0%nat - hour |} ].

Definition scenario_old : message :=
  {| msg_id := 28; msg_text := Some "yesterday";
     msg_date := example_now 0%nat - 25 * hour |}.

Definition scenario_client : TelegramClient := {|
  iter_messages := fun _ _ _ =>
    {| yielded := scenario_messages ++ [scenario_old]; failure := None |};
  get_entity := no_entity
|}.

(** A single message dated exactly now-24h. *)
Definition boundary_message : message :=
  {| msg_id := 7; msg_text := Some "at the cutoff";
     msg_date := example_now 0%nat - hours_24 |}.

Definition boundary_client : TelegramClient := {|
  iter_messages := fun _ _ _ =>
    {| yielded := [boundary_message]; failure := None |};
  get_entity := no_entity
|}.

(** Messages without text between messages with text. *)
Definition texts_client : TelegramClient := {|
  iter_messages := fun _ _ _ =>
    {| yielded :=
         [ {| msg_id := 5; msg_text := Some ""; msg_date := example_now 0%nat |};
           {| msg_id := 4; msg_text := Some "hello";
              msg_date := example_now 0%nat - hour |};
           {| msg_id := 3; msg_text := None;
              msg_date := example_now 0%nat - 2 * hour |} ];
       failure := None |};
  get_entity := no_entity
|}.

(** A broadcast channel and a user, both with raw id 123. *)
Definition news_channel : entity :=
  <["id" := PyInt 123]> (<["username" := PyStr "news"]>
    (<["broadcast" := PyBool true]> (<["megagroup" := PyBool false]> ∅))).

Definition alice_user : entity :=
  <["id" := PyInt 123]> (<["username" := PyNone]> ∅).

Definition entities_client : TelegramClient := {|
  iter_messages := fun _ _ _ => {| yielded := []; failure := None |};
  get_entity := fun channel =>
    if String.eqb channel "news" then Return news_channel
    else if String.eqb channel "alice" then Return alice_user
    else no_entity channel
|}.

(** A started queue that lost its connection: the worker waits for the
    bounded connect. *)
Definition reconnecting : state :=
  run init [Call_start; Client_started 0 (Return ()); Client_disconnected;
            Worker 0 Run].

(** A started queue with three tasks submitted, the worker executing the
    first of them. *)
Definition busy : state :=
  run init [Call_start; Client_started 0 (Return ());
            Call_enqueue (get_channel_id "a");
            Call_enqueue (get_channel_id "b");
            Call_enqueue (get_today_messages_by_id 5);
            Worker 0 Run].

(** Two producers submit to a queue that was never started: both find
    [running] false and wait in [client.start()]; each then sets [running],
    creates a worker and puts its task. The two workers take one task each,
    and the platform answers the second task first. *)
Definition lazy_start_race : list event :=
  [Call_enqueue (get_channel_id "news");
   Call_enqueue (get_channel_id "alice");
   Client_started 0 (Return ());
   Client_started 0 (Return ());
   Worker 0 Run;
   Worker 1 Run;
   Worker 1 (Task_returns entities_client example_now);
   Worker 0 (Task_returns entities_client example_now)].

(** After a stop: the queue is started again, the new worker executes the
    next task, and the platform's late answer for the old worker comes in. *)
Definition restart_and_serve : list event :=
  [Call_start; Client_started 0 (Return ()); Worker 1 Run;
   Worker 1 (Task_returns entities_client example_now);
   Worker 0 (Task_returns entities_client example_now)].

(** A started queue that has served a first task and is executing a
    second one. *)
Definition served_once : state :=
  run init [Call_start; Client_started 0 (Return ());
            Call_enqueue (get_channel_id "alice");
            Call_enqueue (get_channel_id "news");
            Worker 0 Run;
            Worker 0 (Task_returns entities_client example_now)].

(** A client whose [get_entity] is cancelled from outside. *)
Definition cancelled_client : TelegramClient := {|
  iter_messages := fun _ _ _ => {| yielded := []; failure := None |};
  get_entity := fun _ => Raise CancelledError
|}.

(** A queue started once; three tasks are submitted and served while a
    fourth is submitted, then the queue is stopped and started again. *)
Definition orderly_events : list event :=
  [Call_start; Client_started 0 (Return ());
   Call_enqueue (get_channel_id "news");
   Call_enqueue (get_channel_id "nobody");
   Worker 0 Run;
   Call_enqueue (get_today_messages_by_name "news");
   Worker 0 (Task_returns entities_client example_now);
   Worker 0 (Task_returns entities_client example_now);
   Call_enqueue (get_channel_id "alice");
   Call_stop; Client_disconnected;
   Call_enqueue (get_channel_id "alice");
   Client_started 0 (Return ());
   Worker 1 Run;
   Worker 1 (Task_returns entities_client example_now)].

(** A basic group, as resolved from an invite link: it has an id and a
    title but no [username] attribute. *)
Definition basic_group : entity :=
  <["id" := PyInt 77]> (<["title" := PyStr "friends"]> ∅).

(** A channel-like entity with a negative id. *)
Definition negative_channel : entity :=
  <["id" := PyInt (-5)]> (<["username" := PyNone]>
    (<["megagroup" := PyBool true]> ∅)).

Definition odd_entities_client : TelegramClient := {|
  iter_messages := fun _ _ _ => {| yielded := []; failure := None |};
  get_entity := fun channel =>
    if String.eqb channel "friends" then Return basic_group
    else if String.eqb channel "negative" then Return negative_channel
    else no_entity channel
|}.

(** The iterator fails after three messages of the last 24 hours. *)
Definition failing_client : TelegramClient := {|
  iter_messages := fun _ _ _ =>
    {| yielded := scenario_messages;
       failure := Some (Exception "FloodWaitError" "wait 30 seconds") |};
  get_entity := no_entity
|}.

(** The queue lost its connection with two tasks waiting. *)
Definition outage : state :=
  run init [Call_start; Client_started 0 (Return ()); Client_disconnected;
            Worker 0 Run;
            Call_enqueue (get_channel_id "news");
            Call_enqueue (get_channel_id "alice")].

(** A client that tells, in the text of the one message it yields, which
    entity it was asked for. *)
Definition echo_client : TelegramClient := {|
  iter_messages := fun entity _ _ =>
    {| yielded := [ {| msg_id := 1; msg_text := Some (py_str entity);
                       msg_date := example_now 0%nat |} ];
       failure := None |};
  get_entity := no_entity
|}.

(** * Properties *)

(** ** The task bodies *)

Lemma try_except_reraise {A} (body : outcome A) :
  try_except_Exception body (fun e => Raise e) = body.
Proof. destruct body as [a|e]; simpl; [done|]. by destruct (is_Exception e). Qed.

Lemma iterate_spec cutoff ms fin acc :
  iterate cutoff ms fin acc =
  match (if breaks cutoff ms then None else fin) with
  | None => Return (acc ++ omap entry (recent cutoff ms))
  | Some e => Raise e
  end.
Proof.
  revert acc. induction ms as [|m rest IH]; intros acc; simpl.
  - destruct fin; [done|]. by rewrite app_nil_r.
  - destruct (msg_date m <? cutoff) eqn:Hold; simpl.
    + by rewrite app_nil_r.
    + unfold entry. destruct (msg_text m) as [t|]; [|by apply IH].
      destruct (String.eqb t ""); [by apply IH|].
      rewrite IH. fold (breaks cutoff rest).
      destruct (if breaks cutoff rest then None else fin); [done|].
      by rewrite <- app_assoc.
Qed.

Lemma _get_today_messages_spec client now cid cname :
  let it := iter_messages client (channel_entity cid cname) 100 (now 2%nat) in
  let cutoff := now 0%nat - hours_24 in
  _get_today_messages client now cid cname =
  match (if breaks cutoff (yielded it) then None else failure it) with
  | None =>
      Return {| meta := {| channel_id := channel_entity cid cname;
                           date := now 1%nat |};
                messages := omap entry (recent cutoff (yielded it)) |}
  | Some e => Raise e
  end.
Proof.
  intros it cutoff. unfold _get_today_messages.
  rewrite try_except_reraise. fold it cutoff. rewrite iterate_spec. simpl.
  by destruct (if breaks cutoff (yielded it) then None else failure it).
Qed.

Lemma recent_app_old cutoff pre old post :
  Forall (fun m => cutoff <= msg_date m) pre ->
  msg_date old < cutoff ->
  recent cutoff (pre ++ old :: post) = pre
  /\ breaks cutoff (pre ++ old :: post) = true.
Proof.
  intros Hpre Hold. apply Z.ltb_lt in Hold. unfold breaks.
  induction Hpre as [|m pre Hm _ [IH1 IH2]]; simpl.
  - by rewrite Hold.
  - apply Z.ltb_ge in Hm. by rewrite Hm, IH1, IH2.
Qed.

Lemma recent_all cutoff ms :
  Forall (fun m => cutoff <= msg_date m) ms ->
  recent cutoff ms = ms /\ breaks cutoff ms = false.
Proof.
  unfold breaks. induction 1 as [|m ms Hm _ [IH1 IH2]]; simpl; [done|].
  apply Z.ltb_ge in Hm. by rewrite Hm, IH1, IH2.
Qed.

Lemma entry_Some m cm :
  entry m = Some cm <->
  msg_id m = id cm /\ msg_text m = Some (text cm) /\ text cm <> "".
Proof.
  unfold entry. destruct cm as [i t]; simpl. split.
  - destruct (msg_text m) as [t'|]; [|done].
    destruct (String.eqb_spec t' ""); [done|]. by intros [= -> ->].
  - intros (-> & -> & Hne). by destruct (String.eqb_spec t "").
Qed.

Lemma omap_length_le {A B} (f : A -> option B) (l : list A) :
  (length (omap f l) <= length l)%nat.
Proof.
  induction l as [|a l IH]; simpl; [lia|].
  change (list_omap A B f l) with (omap f l). destruct (f a); simpl; lia.
Qed.

(** The iterator is run to its end when no message is older than the
    cutoff: the result then holds all messages with text, or the
    iterator's exception is raised. *)
Lemma _get_today_messages_exhausted client now cid cname :
  let it := iter_messages client (channel_entity cid cname) 100 (now 2%nat) in
  Forall (fun m => now 0%nat - hours_24 <= msg_date m) (yielded it) ->
  _get_today_messages client now cid cname =
  match failure it with
  | None =>
      Return {| meta := {| channel_id := channel_entity cid cname;
                           date := now 1%nat |};
                messages := omap entry (yielded it) |}
  | Some e => Raise e
  end.
Proof.
  intros it Hall. rewrite _get_today_messages_spec. fold it.
  destruct (recent_all _ _ Hall) as [-> ->]. done.
Qed.

(** C3 (as amended): [_get_today_messages] asks the iterator for at most
    100 messages from the offset date [now] backward, and stops at the
    first message strictly older than now-24h: with [pre] the messages
    yielded before it, none of them older than the cutoff, the result holds
    exactly the entries of [pre], in order, whatever follows. A message
    dated exactly now-24h is not older than the cutoff and is kept. *)
Theorem C3_stops_at_first_older client now cid cname pre old post :
  yielded (iter_messages client (channel_entity cid cname) 100 (now 2%nat))
    = pre ++ old :: post ->
  Forall (fun m => now 0%nat - hours_24 <= msg_date m) pre ->
  msg_date old < now 0%nat - hours_24 ->
  exists r,
    _get_today_messages client now cid cname = Return r
    /\ messages r = omap entry pre
    /\ (length (messages r) <= length pre)%nat
    /\ (forall m t, m ∈ pre -> msg_date m = now 0%nat - hours_24 ->
          msg_text m = Some t -> t <> "" ->
          {| id := msg_id m; text := t |} ∈ messages r).
Proof.
  intros Hy Hpre Hold. rewrite _get_today_messages_spec, Hy.
  destruct (recent_app_old _ _ _ post Hpre Hold) as [-> ->].
  eexists. split; [done|]. simpl. split; [done|]. split.
  - apply omap_length_le.
  - intros m t Hm _ Ht Hne. apply list_elem_of_omap. exists m.
    split; [done|]. apply entry_Some. done.
Qed.

(** The scenario of the specification: of the messages dated now, now-1h
    and now-25h the first two are returned, in that order. *)
Lemma C3_scenario :
  exists r,
    _get_today_messages scenario_client example_now None (Some "news")
      = Return r
    /\ messages r = [ {| id := 30; text := "newest" |};
                      {| id := 29; text := "an hour ago" |} ].
Proof.
  destruct (C3_stops_at_first_older scenario_client example_now None
              (Some "news") scenario_messages scenario_old [])
    as (r & Hr & Hm & _).
  - reflexivity.
  - repeat constructor; vm_compute; discriminate.
  - reflexivity.
  - exists r. split; [exact Hr | exact Hm].
Defined.

(** C3 as stated fails at the boundary: a message dated exactly now-24h is
    in the result. *)
Lemma C3_boundary_message_kept :
  msg_date boundary_message = example_now 0%nat - hours_24
  /\ _get_today_messages boundary_client example_now (Some 1) None
     = Return {| meta := {| channel_id := PyInt 1; date := example_now 1%nat |};
                 messages := [ {| id := 7; text := "at the cutoff" |} ] |}.
Proof. split; reflexivity. Qed.

(** C8: when [_get_today_messages] returns, its messages are the entries
    of the messages in the window (those the loop saw before its break):
    a message of the window is in the result, as its [{id, text}] pair, if
    and only if its text is present and not empty; the others leave
    nothing behind. *)
Theorem C8_only_messages_with_text client now cid cname r :
  _get_today_messages client now cid cname = Return r ->
  let window :=
    recent (now 0%nat - hours_24)
      (yielded (iter_messages client (channel_entity cid cname) 100
                  (now 2%nat))) in
  messages r = omap entry window
  /\ (forall cm, cm ∈ messages r <->
        exists m, m ∈ window /\ msg_id m = id cm
                  /\ msg_text m = Some (text cm) /\ text cm <> "")
  /\ (forall m, msg_text m = None \/ msg_text m = Some "" -> entry m = None)
  /\ (forall m t, msg_text m = Some t -> t <> "" ->
        entry m = Some {| id := msg_id m; text := t |}).
Proof.
  intros Hr window. rewrite _get_today_messages_spec in Hr.
  fold window in Hr.
  assert (messages r = omap entry window) as Hm.
  { destruct (if breaks _ _ then None else _); [done|]. by injection Hr as <-. }
  split; [done|]. split; [|split].
  - intros cm. rewrite Hm, list_elem_of_omap. split.
    + intros (m & Hin & He). apply entry_Some in He. by exists m.
    + intros (m & Hin & He). exists m. split; [done|]. by apply entry_Some.
  - intros m [Ht|Ht]; unfold entry; by rewrite Ht.
  - intros m t Ht Hne. by apply entry_Some.
Qed.

Lemma C8_example :
  exists r,
    _get_today_messages texts_client example_now (Some 1) None = Return r
    /\ messages r = [ {| id := 4; text := "hello" |} ].
Proof.
  eexists. split; [reflexivity|].
  apply (C8_only_messages_with_text texts_client example_now (Some 1) None).
  reflexivity.
Defined.

(** C10: the entity is chosen by truthiness, [channel_name or channel_id]:
    a name that is absent or empty gives way to [channel_id] (which may
    itself be absent), so fetching by the name "" queries [None]. The
    chosen value is what the iterator is asked for, with limit 100 and the
    offset date [now]: the call returns or raises as the answer to that
    request makes it, and a returned result carries the chosen value in
    the [channel_id] of its [meta]. *)
Theorem C10_entity_by_truthiness client now cid cname :
  let by_id := from_option PyInt PyNone cid in
  let selected :=
    match cname with
    | None => by_id
    | Some name => if String.eqb name "" then by_id else PyStr name
    end in
  let it := iter_messages client selected 100 (now 2%nat) in
  let cutoff := now 0%nat - hours_24 in
  channel_entity cid cname = selected
  /\ channel_entity None (Some "") = PyNone
  /\ _get_today_messages client now cid cname
     = match (if breaks cutoff (yielded it) then None else failure it) with
       | None =>
           Return {| meta := {| channel_id := selected; date := now 1%nat |};
                     messages := omap entry (recent cutoff (yielded it)) |}
       | Some e => Raise e
       end
  /\ (failure it = None ->
       exists r, _get_today_messages client now cid cname = Return r
                 /\ channel_id (meta r) = selected
                 /\ messages r = omap entry (recent cutoff (yielded it)))
  /\ (forall client',
        iter_messages client' selected 100 (now 2%nat)
          = iter_messages client selected 100 (now 2%nat) ->
        _get_today_messages client' now cid cname
          = _get_today_messages client now cid cname)
  /\ (forall r, _get_today_messages client now cid cname = Return r ->
        channel_id (meta r) = selected).
Proof.
  intros by_id selected it cutoff.
  assert (channel_entity cid cname = selected) as Hsel.
  { unfold channel_entity, py_or, selected, by_id.
    destruct cname as [name|]; simpl; [|done]. by destruct (String.eqb name ""). }
  assert (_get_today_messages client now cid cname
          = match (if breaks cutoff (yielded it) then None else failure it) with
            | None =>
                Return {| meta := {| channel_id := selected;
                                     date := now 1%nat |};
                          messages := omap entry (recent cutoff (yielded it)) |}
            | Some e => Raise e
            end) as Heq.
  { rewrite _get_today_messages_spec, Hsel. reflexivity. }
  split; [done|]. split; [done|]. split; [done|]. split; [|split].
  - intros Hfail. rewrite Heq, Hfail.
    destruct (breaks cutoff (yielded it)); eexists; (split; [reflexivity|done]).
  - intros client' Hsame. rewrite !_get_today_messages_spec, Hsel.
    by rewrite Hsame.
  - intros r. rewrite Heq.
    destruct (if breaks _ _ then None else _); [done|].
    intros [= <-]. done.
Qed.

(** Fetching by the empty name, on a client that tells which entity it was
    asked for: the request is made for [None], not for the empty name, and
    the result names the entity [None]. *)
Lemma C10_empty_name :
  run_task echo_client example_now (get_today_messages_by_name "")
  = Return (Messages
              {| meta := {| channel_id := PyNone; date := example_now 1%nat |};
                 messages := [ {| id := 1; text := "None" |} ] |}).
Proof.
  destruct (C10_entity_by_truthiness echo_client example_now None (Some ""))
    as (_ & _ & Heq & _).
  cbn [run_task get_today_messages_by_name]. rewrite Heq. reflexivity.
Defined.

(** ** Decimal text *)

Lemma append_cons c s t :
  String.append (String c s) t = String c (String.append s t).
Proof. reflexivity. Qed.

Lemma append_assoc s t u :
  String.append (String.append s t) u = String.append s (String.append t u).
Proof.
  induction s as [|c s IH]; [done|]. rewrite !append_cons. by rewrite IH.
Qed.

Lemma length_append s t :
  String.length (String.append s t) = (String.length s + String.length t)%nat.
Proof.
  induction s as [|c s IH]; [done|]. rewrite append_cons. simpl. by rewrite IH.
Qed.

Lemma digit_of_digit_char d :
  0 <= d < 10 -> digit_of_char (digit_char d) = Some d.
Proof.
  intros Hd.
  assert (d = 0 \/ d = 1 \/ d = 2 \/ d = 3 \/ d = 4 \/ d = 5 \/ d = 6
          \/ d = 7 \/ d = 8 \/ d = 9) as Hcases by lia.
  repeat (destruct Hcases as [->|Hcases]; [reflexivity|]).
  by subst.
Qed.

Lemma parse_digits_append s t acc :
  parse_digits (String.append s t) acc
  = match parse_digits s acc with
    | Some n => parse_digits t n
    | None => None
    end.
Proof.
  revert acc. induction s as [|c s IH]; intros acc; [done|].
  rewrite append_cons. simpl. destruct (digit_of_char c); [apply IH|done].
Qed.

Lemma digits_from_acc fuel n acc :
  digits_from fuel n acc = String.append (digits_from fuel n "") acc.
Proof.
  revert n acc. induction fuel as [|fuel IH]; intros n acc; simpl; [done|].
  destruct (n <? 10); [done|].
  rewrite (IH _ (String _ acc)), (IH _ (String _ "")).
  by rewrite append_assoc.
Qed.

Lemma digits_from_fuel f1 f2 n acc :
  (0 < f1)%nat -> (0 < f2)%nat ->
  0 <= n < 2 ^ Z.of_nat f1 -> n < 2 ^ Z.of_nat f2 ->
  digits_from f1 n acc = digits_from f2 n acc.
Proof.
  revert f2 n acc. induction f1 as [|f1 IH]; intros f2 n acc Hf1 Hf2 H1 H2.
  - lia.
  - destruct f2 as [|f2]; [lia|].
    simpl digits_from. destruct (n <? 10) eqn:Hn; [done|].
    apply Z.ltb_ge in Hn.
    rewrite Nat2Z.inj_succ, Z.pow_succ_r in H1, H2 by lia.
    assert (1 <= n / 10) by (apply Z.div_le_lower_bound; lia).
    assert (n / 10 < 2 ^ Z.of_nat f1) by (apply Z.div_lt_upper_bound; lia).
    assert (n / 10 < 2 ^ Z.of_nat f2) by (apply Z.div_lt_upper_bound; lia).
    apply IH; [| |lia|lia].
    + destruct f1; [simpl in *; lia|lia].
    + destruct f2; [simpl in *; lia|lia].
Qed.

Lemma below_pow2_log2 n : 0 <= n -> n < 2 ^ Z.of_nat (S (Z.to_nat (Z.log2 n))).
Proof.
  intros Hn. rewrite Nat2Z.inj_succ, Z2Nat.id by apply Z.log2_nonneg.
  destruct (Z.eq_dec n 0) as [->|Hne]; [done|].
  apply Z.log2_spec. lia.
Qed.

(** The digits of a number: its last digit after the digits of the rest. *)
Lemma digits_of_nonneg_eq n :
  0 <= n ->
  digits_of_nonneg n =
  if n <? 10 then String (digit_char n) ""
  else String.append (digits_of_nonneg (n / 10))
         (String (digit_char (n mod 10)) "").
Proof.
  intros Hn. unfold digits_of_nonneg at 1. simpl digits_from.
  destruct (n <? 10) eqn:Hlt.
  - apply Z.ltb_lt in Hlt. by rewrite Z.mod_small by lia.
  - apply Z.ltb_ge in Hlt. rewrite digits_from_acc. f_equal.
    assert (0 <= n / 10) by (apply Z.div_pos; lia).
    apply digits_from_fuel; [| lia | | by apply below_pow2_log2].
    { assert (0 < Z.log2 n) by (apply Z.log2_pos; lia).
      apply Nat2Z.inj_lt. rewrite Z2Nat.id; lia. }
    split; [done|]. rewrite Z2Nat.id by apply Z.log2_nonneg.
    apply Z.div_lt_upper_bound; [lia|].
    assert (n < 2 ^ Z.succ (Z.log2 n)) by (apply Z.log2_spec; lia).
    rewrite Z.pow_succ_r in * by apply Z.log2_nonneg. lia.
Qed.

(** Induction over the digits of a number. *)
Lemma digits_ind (P : Z -> Prop) :
  (forall n, 0 <= n < 10 -> P n) ->
  (forall n, 10 <= n -> P (n / 10) -> P n) ->
  forall n, 0 <= n -> P n.
Proof.
  intros Hsmall Hbig. apply Zlt_0_ind. intros n IH Hn.
  destruct (Z_lt_dec n 10); [apply Hsmall; lia|].
  apply Hbig; [lia|]. apply IH.
  split; [apply Z.div_pos; lia|]. apply Z.div_lt_upper_bound; lia.
Qed.

Lemma digits_count_pos n : 0 <= n -> 0 < digits_count n.
Proof.
  intros Hn. unfold digits_count. rewrite digits_of_nonneg_eq by done.
  destruct (n <? 10); [simpl; lia|]. rewrite length_append. simpl. lia.
Qed.

(** Reading the digits of [n] after having read [acc] shifts [acc] by as
    many places as [n] has digits. *)
Lemma parse_digits_of_nonneg n :
  0 <= n ->
  forall acc,
    parse_digits (digits_of_nonneg n) acc
    = Some (acc * 10 ^ digits_count n + n).
Proof.
  intros Hn. pattern n. revert n Hn. apply digits_ind.
  - intros n Hn acc. unfold digits_count.
    rewrite digits_of_nonneg_eq by lia.
    assert ((n <? 10) = true) as -> by (apply Z.ltb_lt; lia).
    cbn [parse_digits String.length].
    rewrite digit_of_digit_char by done.
    change (Z.of_nat 1) with 1. rewrite Z.pow_1_r. f_equal. lia.
  - intros n Hn IH acc. unfold digits_count.
    rewrite digits_of_nonneg_eq by lia.
    assert ((n <? 10) = false) as -> by (apply Z.ltb_ge; lia).
    rewrite parse_digits_append, IH, length_append.
    cbn [parse_digits String.length].
    rewrite digit_of_digit_char by (apply Z.mod_pos_bound; lia).
    f_equal. rewrite Nat2Z.inj_add.
    rewrite Z.pow_add_r by apply Nat2Z.is_nonneg.
    fold (digits_count (n / 10)).
    change (Z.of_nat 1) with 1. rewrite Z.pow_1_r.
    pose proof (Z.div_mod n 10). lia.
Qed.

(** The digits of [a] followed by the digits of [n] are the digits of [a]
    shifted by the number of digits of [n], plus [n]. *)
Lemma digits_of_shifted a n :
  0 < a -> 0 <= n ->
  digits_of_nonneg (a * 10 ^ digits_count n + n)
  = String.append (digits_of_nonneg a) (digits_of_nonneg n).
Proof.
  intros Ha Hn. pattern n. revert n Hn. apply digits_ind.
  - intros n Hn. unfold digits_count.
    rewrite (digits_of_nonneg_eq n) by lia.
    assert ((n <? 10) = true) as -> by (apply Z.ltb_lt; lia).
    cbn [String.length]. change (Z.of_nat 1) with 1. rewrite Z.pow_1_r.
    rewrite digits_of_nonneg_eq by lia.
    assert ((a * 10 + n <? 10) = false) as -> by (apply Z.ltb_ge; lia).
    replace ((a * 10 + n) / 10) with a
      by (apply Z.div_unique with n; lia).
    replace ((a * 10 + n) mod 10) with n
      by (apply Z.mod_unique with a; lia).
    done.
  - intros n Hn IH. unfold digits_count.
    rewrite (digits_of_nonneg_eq n) by lia.
    assert ((n <? 10) = false) as -> by (apply Z.ltb_ge; lia).
    rewrite length_append. cbn [String.length].
    rewrite Nat2Z.inj_add.
    rewrite Z.pow_add_r by apply Nat2Z.is_nonneg.
    fold (digits_count (n / 10)).
    change (Z.of_nat 1) with 1. rewrite Z.pow_1_r.
    set (p := 10 ^ digits_count (n / 10)) in *.
    assert (0 < p) by (apply Z.pow_pos_nonneg; unfold digits_count; lia).
    pose proof (Z.div_mod n 10) as Hdm.
    pose proof (Z.mod_pos_bound n 10) as Hmod.
    assert (0 <= n / 10) by (apply Z.div_pos; lia).
    rewrite digits_of_nonneg_eq by nia.
    assert ((a * (p * 10) + n <? 10) = false) as -> by (apply Z.ltb_ge; nia).
    replace ((a * (p * 10) + n) / 10) with (a * p + n / 10)
      by (apply Z.div_unique with (n mod 10); lia).
    replace ((a * (p * 10) + n) mod 10) with (n mod 10)
      by (apply Z.mod_unique with (a * p + n / 10); lia).
    rewrite IH. by rewrite append_assoc.
Qed.

(** ** [_get_channel_id] *)

Lemma py_int_minus c ds n :
  parse_digits (String c ds) 0 = Some n ->
  py_int (String "-" (String c ds)) = Return (- n).
Proof.
  intros Hp. unfold py_int. cbv beta iota zeta. rewrite Hp. f_equal; lia.
Qed.

Lemma py_int_prefixed n :
  0 <= n ->
  py_int (String.append "-100" (str_of_int n))
  = Return (- (100 * 10 ^ digits_count n + n)).
Proof.
  intros Hn. unfold str_of_int.
  assert ((n <? 0) = false) as -> by (apply Z.ltb_ge; lia).
  change (String.append "-100" (digits_of_nonneg n))
    with (String "-" (String "1" (String.append "00" (digits_of_nonneg n)))).
  apply py_int_minus.
  change (String "1" (String.append "00" (digits_of_nonneg n)))
    with (String.append "100" (digits_of_nonneg n)).
  rewrite parse_digits_append.
  change (parse_digits "100" 0) with (Some 100).
  by apply parse_digits_of_nonneg.
Qed.

Lemma str_of_int_prefixed n :
  0 <= n ->
  str_of_int (- (100 * 10 ^ digits_count n + n))
  = String.append "-100" (str_of_int n).
Proof.
  intros Hn.
  assert (0 < 10 ^ digits_count n)
    by (apply Z.pow_pos_nonneg; unfold digits_count; lia).
  unfold str_of_int.
  assert ((- (100 * 10 ^ digits_count n + n) <? 0) = true) as ->
    by (apply Z.ltb_lt; lia).
  assert ((n <? 0) = false) as -> by (apply Z.ltb_ge; lia).
  rewrite Z.opp_involutive, digits_of_shifted by lia. reflexivity.
Qed.

(** C4 (as amended): for a resolved entity with a raw id [n] (not
    negative), [_get_channel_id] reads the [username] attribute: when the
    entity has it (its value may be [None]) the id is returned together
    with the username, prefixed with -100 when the entity carries the
    [megagroup] or the [broadcast] attribute, and only then, and [n] itself
    otherwise; when the entity has no [username] attribute nothing is
    returned and [AttributeError] is raised. The prefixed id is the integer
    whose decimal text is "-100" followed by all digits of [n]. *)
Theorem C4_channel_id_prefix client channel (e : entity) n :
  get_entity client channel = Return e ->
  e !! "id" = Some (PyInt n) ->
  0 <= n ->
  let prefixed := - (100 * 10 ^ digits_count n + n) in
  _get_channel_id client channel
    = match e !! "username" with
      | Some u => Return (PyInt (if channel_like e then prefixed else n), u)
      | None => Raise (Exception "AttributeError" "username")
      end
  /\ (forall u, e !! "username" = Some u ->
        (_get_channel_id client channel = Return (PyInt prefixed, u)
         <-> channel_like e = true)
        /\ (_get_channel_id client channel = Return (PyInt n, u)
            <-> channel_like e = false))
  /\ str_of_int prefixed = String.append "-100" (str_of_int n).
Proof.
  intros He Hid Hn prefixed.
  assert (0 < 10 ^ digits_count n)
    by (apply Z.pow_pos_nonneg; unfold digits_count; lia).
  assert (prefixed <> n) as Hne by (unfold prefixed; lia).
  assert (_get_channel_id client channel
          = match e !! "username" with
            | Some u =>
                Return (PyInt (if channel_like e then prefixed else n), u)
            | None => Raise (Exception "AttributeError" "username")
            end) as Hres.
  { unfold _get_channel_id. rewrite try_except_reraise, He.
    cbn [mbind outcome_bind]. unfold getattr. rewrite Hid.
    cbn [mbind outcome_bind]. destruct (e !! "username") as [u|]; [|done].
    cbn [mbind outcome_bind]. fold (channel_like e).
    destruct (channel_like e); [|done].
    cbn [py_str]. rewrite py_int_prefixed by done. done. }
  split; [done|]. split; [|by apply str_of_int_prefixed].
  intros u Hu. rewrite Hres, Hu. split.
  - destruct (channel_like e); split; intros Heq; try done.
    injection Heq as Heq. done.
  - destruct (channel_like e); split; intros Heq; try done.
    injection Heq as Heq. done.
Qed.

(** The example of the specification: raw id 123 on a broadcast channel
    gives -100123; the same id on a user is returned as it is. *)
Lemma C4_example :
  _get_channel_id entities_client "news"
    = Return (PyInt (-100123), PyStr "news")
  /\ _get_channel_id entities_client "alice" = Return (PyInt 123, PyNone).
Proof.
  split.
  - destruct (C4_channel_id_prefix entities_client "news" news_channel 123)
      as [H _]; [reflexivity|reflexivity|lia|exact H].
  - destruct (C4_channel_id_prefix entities_client "alice" alice_user 123)
      as [H _]; [reflexivity|reflexivity|lia|exact H].
Defined.

(** C4 as stated fails on an entity without a [username] attribute: a
    basic group, which is neither a broadcast channel nor a supergroup, is
    resolved with its raw id 77, and the call raises [AttributeError]
    instead of returning the id. *)
Lemma C4_basic_group_is_not_answered :
  get_entity odd_entities_client "friends" = Return basic_group
  /\ basic_group !! "id" = Some (PyInt 77)
  /\ channel_like basic_group = false
  /\ _get_channel_id odd_entities_client "friends"
     = Raise (Exception "AttributeError" "username").
Proof. repeat split; reflexivity. Qed.

(** ** The queue and its worker *)

Lemma with_tasks_same s : with_tasks (tasks s) s = s.
Proof. by destruct s. Qed.

Lemma loop_head_reconnect s :
  running s = true -> connected s = false ->
  loop_head s = (s, AwaitConnect 10).
Proof. intros Hr Hc. unfold loop_head. by rewrite Hr, Hc. Qed.

Lemma after_connect_failed e s :
  is_Exception e = true -> after_connect (Raise e) s = (s, AwaitSleep 5).
Proof.
  intros He. unfold after_connect. rewrite He. by destruct (is_TimeoutError e).
Qed.

Lemma failed_connect_round s w e :
  running s = true -> connected s = false ->
  tasks s !! w = Some (AwaitConnect 10) ->
  is_Exception e = true ->
  step s (Worker w (Connect_returns (Raise e)))
    = with_tasks (<[w := AwaitSleep 5]> (tasks s)) s
  /\ run s [Worker w (Connect_returns (Raise e)); Worker w Slept] = s.
Proof.
  intros Hr Hc Hw He.
  assert (step s (Worker w (Connect_returns (Raise e)))
          = with_tasks (<[w := AwaitSleep 5]> (tasks s)) s) as Hstep.
  { cbn [step]. rewrite Hw. cbn [resume]. by rewrite after_connect_failed. }
  split; [done|].
  unfold run. cbn [fold_left]. rewrite Hstep.
  assert (w < length (tasks s))%nat by (eapply lookup_lt_Some; eauto).
  cbn [step]. cbn [tasks with_tasks].
  rewrite list_lookup_insert_eq by done. cbn [resume].
  rewrite loop_head_reconnect by done. cbn [tasks with_tasks].
  rewrite list_insert_insert_eq, list_insert_id by done.
  exact (with_tasks_same s).
Qed.

(** C7: while the queue is running and the client reports that it is not
    connected, the worker asks for a connect bounded by 10 seconds; when
    the attempt times out or fails it sleeps 5 seconds and comes back to the
    same attempt, without having taken a task. Any number of failed
    attempts leaves the whole state as it was: the worker is alive, waiting
    for the connect, and the queue and the futures are untouched. *)
Theorem C7_reconnect_with_backoff s w errors :
  running s = true ->
  connected s = false ->
  tasks s !! w = Some (AwaitConnect 10) ->
  Forall (fun e => is_Exception e = true) errors ->
  loop_head s = (s, AwaitConnect 10)
  /\ after_connect (Raise TimeoutError) s = (s, AwaitSleep 5)
  /\ (forall e, is_Exception e = true ->
        after_connect (Raise e) s = (s, AwaitSleep 5))
  /\ run s (failed_connects w errors) = s.
Proof.
  intros Hr Hc Hw Herr.
  split; [by apply loop_head_reconnect|].
  split; [done|]. split; [intros e He; by apply after_connect_failed|].
  induction Herr as [|e errors He _ IH]; [done|].
  change (failed_connects w (e :: errors))
    with ([Worker w (Connect_returns (Raise e)); Worker w Slept]
            ++ failed_connects w errors).
  unfold run. rewrite fold_left_app.
  destruct (failed_connect_round s w e Hr Hc Hw He) as [_ Hround].
  unfold run in Hround, IH. by rewrite Hround.
Qed.

Lemma C7_example :
  tasks reconnecting = [AwaitConnect 10]
  /\ run reconnecting
       (failed_connects 0 [TimeoutError; Exception "ConnectionError" "refused";
                           TimeoutError])
     = reconnecting.
Proof.
  split; [reflexivity|].
  apply (C7_reconnect_with_backoff reconnecting 0);
    [reflexivity|reflexivity|reflexivity|].
  repeat constructor.
Defined.

Lemma with_unfinished_tasks_same s n :
  unfinished_tasks s = n -> with_unfinished_tasks n s = s.
Proof. intros <-. by destruct s. Qed.

(** What the cancellation of a worker does once [running] is false: the
    worker ends; only the count of unfinished tasks can change. *)
Lemma cancel_spec pc s :
  running s = false ->
  exists n pc',
    cancel pc s = (with_unfinished_tasks n s, pc')
    /\ ended pc' = true
    /\ (forall t, pc = AwaitTask t -> pc' = Done (Return ())).
Proof.
  intros Hr.
  destruct pc as [| | | |t|r]; cbn [cancel];
    try (exists (unfinished_tasks s); eexists;
         rewrite with_unfinished_tasks_same by done;
         split; [reflexivity|]; split; [done|]; intros ? [=]).
  unfold after_task, settle. cbn [is_Exception]. unfold task_done.
  destruct (unfinished_tasks s) as [|n] eqn:Hn.
  - exists 0%nat, (Done (Return ())).
    rewrite with_unfinished_tasks_same by done.
    cbn [is_CancelledError is_Exception]. unfold loop_head. rewrite Hr.
    done.
  - exists n, (Done (Return ())). cbn [is_CancelledError]. done.
Qed.

Lemma stop_cancel_spec s w pc :
  running s = true -> worker_task s = Some w -> tasks s !! w = Some pc ->
  exists n pc',
    stop_cancel s
      = with_tasks (<[w := pc']> (tasks s))
          (with_unfinished_tasks n (with_running false s))
    /\ ended pc' = true
    /\ (forall t, pc = AwaitTask t -> pc' = Done (Return ())).
Proof.
  intros Hr Hw Hpc. unfold stop_cancel. rewrite Hr. cbn [negb].
  cbn [worker_task with_running tasks]. rewrite Hw, Hpc.
  destruct (cancel_spec pc (with_running false s)) as (n & pc' & Hc & He & Ht);
    [done|].
  rewrite Hc. exists n, pc'. done.
Qed.

Lemma stop_state d s :
  (stop d s).1 = stop_cancel s
  \/ (stop d s).1 = with_connected false (stop_cancel s).
Proof.
  unfold stop. destruct (running s) eqn:Hr; cbn [negb].
  - destruct (match worker_task (stop_cancel s) with
              | Some w => _ | None => _ end); [|by left].
    destruct d; [by right|by left].
  - left. unfold stop_cancel. by rewrite Hr.
Qed.

(** C9: [start()] on a running queue changes nothing, and so does
    [stop()] on a queue that is not running; hence a second [start()]
    after a successful one, and a second [stop()], change nothing. As
    events of the system the two calls are no-ops in the same states. *)
Theorem C9_start_stop_idempotent s r d :
  (running s = true ->
     start r s = (s, Return ()) /\ step s Call_start = s)
  /\ (running s = false ->
        stop d s = (s, Return ()) /\ step s Call_stop = s)
  /\ start r (start (Return ()) s).1 = ((start (Return ()) s).1, Return ())
  /\ (forall d', stop d' (stop d s).1 = ((stop d s).1, Return ())).
Proof.
  split; [|split; [|split]].
  - intros Hr. unfold start. cbn [step]. by rewrite Hr.
  - intros Hr. unfold stop. cbn [step]. unfold stop_cancel. by rewrite Hr.
  - unfold start at 2 3. destruct (running s) eqn:Hr; cbn [fst].
    + unfold start. by rewrite Hr.
    + done.
  - intros d'.
    assert (running (stop d s).1 = false) as Hoff.
    { destruct (running s) eqn:Hr.
      - destruct (worker_task s) as [w|] eqn:Hw.
        + destruct (tasks s !! w) as [pc|] eqn:Hpc.
          * destruct (stop_cancel_spec s w pc Hr Hw Hpc) as (n & pc' & Hs & _).
            destruct (stop_state d s) as [->| ->]; by rewrite Hs.
          * destruct (stop_state d s) as [->| ->];
              unfold stop_cancel; rewrite Hr; cbn [negb worker_task with_running tasks];
              by rewrite Hw, Hpc.
        + destruct (stop_state d s) as [->| ->];
            unfold stop_cancel; rewrite Hr; cbn [negb worker_task with_running];
            by rewrite Hw.
      - unfold stop. by rewrite Hr. }
    unfold stop at 1. by rewrite Hoff.
Qed.

Lemma C9_example :
  start (Return ()) busy = (busy, Return ())
  /\ stop (Return ()) init = (init, Return ()).
Proof.
  destruct (C9_start_stop_idempotent busy (Return ()) (Return ()))
    as [Hstart _].
  destruct (C9_start_stop_idempotent init (Return ()) (Return ()))
    as (_ & Hstop & _).
  split; [apply Hstart; reflexivity | apply Hstop; reflexivity].
Defined.

(** What the worker does with a task that raised an [Exception]: the
    future gets that exception, the count of unfinished tasks goes down,
    and the loop goes on. *)
Lemma after_task_error t e s n :
  is_Exception e = true ->
  futures s !! future t = Some Pending ->
  unfinished_tasks s = S n ->
  after_task t (Raise e) s
  = loop_head
      (with_unfinished_tasks n
         (observe (Resolved (future t))
            (with_futures (<[future t := Failure e]> (futures s)) s))).
Proof.
  intros He Hp Hn. unfold after_task, settle, set_exception, task_done.
  rewrite He, Hp. cbn [unfinished_tasks with_futures observe]. rewrite Hn.
  reflexivity.
Qed.

Lemma loop_head_frame s :
  let r := loop_head s in
  futures r.1 = futures s /\ running r.1 = running s
  /\ tasks r.1 = tasks s /\ connected r.1 = connected s
  /\ unfinished_tasks r.1 = unfinished_tasks s
  /\ match r.2 with
     | AwaitTask t =>
         queue s = t :: queue r.1 /\ history r.1 = history s ++ [Got (future t)]
     | _ => queue r.1 = queue s /\ history r.1 = history s
     end.
Proof.
  unfold loop_head, get_item.
  destruct (running s) eqn:?, (connected s) eqn:?, (queue s) as [|t q] eqn:?;
    simpl; done.
Qed.

Lemma loop_head_alive s :
  running s = true -> ended (loop_head s).2 = false.
Proof.
  intros Hr. unfold loop_head, get_item. rewrite Hr.
  by destruct (connected s), (queue s).
Qed.

Lemma loop_head_next s t q :
  running s = true -> connected s = true -> queue s = t :: q ->
  (loop_head s).2 = AwaitTask t.
Proof.
  intros Hr Hc Hq. unfold loop_head, get_item. by rewrite Hr, Hc, Hq.
Qed.

(** C6: when the task a worker executes raises an [Exception] [e], the
    worker sets exactly [e] on that task's future (which was pending) and
    on nothing else, and stays alive: it goes on with the connect or with
    the next item of the queue, which is otherwise left as it was (the
    failed task is not put back). *)
Theorem C6_task_error_isolated s w t client now e :
  tasks s !! w = Some (AwaitTask t) ->
  run_task client now (call t) = Raise e ->
  is_Exception e = true ->
  futures s !! future t = Some Pending ->
  unfinished_tasks s <> 0%nat ->
  running s = true ->
  let s' := step s (Worker w (Task_returns client now)) in
  futures s' = <[future t := Failure e]> (futures s)
  /\ running s' = true
  /\ (exists pc, tasks s' !! w = Some pc /\ ended pc = false
        /\ match pc with
           | AwaitTask t' => queue s = t' :: queue s'
           | _ => queue s' = queue s
           end)
  /\ (connected s = true -> forall t' q, queue s = t' :: q ->
        tasks s' !! w = Some (AwaitTask t') /\ queue s' = q).
Proof.
  intros Hw Hrun He Hp Hn Hr s'.
  destruct (unfinished_tasks s) as [|n] eqn:Hn'; [done|].
  assert (w < length (tasks s))%nat as Hlt by (eapply lookup_lt_Some; eauto).
  set (s1 := with_unfinished_tasks n
               (observe (Resolved (future t))
                  (with_futures (<[future t := Failure e]> (futures s)) s))).
  assert (s' = with_tasks (<[w := (loop_head s1).2]> (tasks (loop_head s1).1))
                 (loop_head s1).1) as Hs'.
  { unfold s'. cbn [step]. rewrite Hw. cbn [resume]. rewrite Hrun.
    rewrite (after_task_error t e s n) by done. fold s1.
    by destruct (loop_head s1). }
  destruct (loop_head_frame s1) as (Hf & Hr1 & Ht & Hc & _ & Hq).
  cbn zeta in Hf, Hr1, Ht, Hc, Hq.
  rewrite Hs'. cbn [futures running tasks queue with_tasks].
  rewrite Ht. cbn [tasks s1 with_unfinished_tasks observe with_futures].
  rewrite list_lookup_insert_eq by done.
  split; [by rewrite Hf|]. split; [by rewrite Hr1|]. split.
  - exists (loop_head s1).2. split; [done|].
    split; [by apply loop_head_alive|].
    destruct (loop_head s1).2; by destruct Hq.
  - intros Hcon t' q Hqueue.
    assert ((loop_head s1).2 = AwaitTask t') as Hnext
      by by apply (loop_head_next s1 t' q).
    rewrite Hnext in Hq |- *. destruct Hq as [Hq _].
    split; [done|]. cbn [queue s1 with_unfinished_tasks observe with_futures] in Hq.
    rewrite Hqueue in Hq. by injection Hq as ->.
Qed.

Lemma C6_example :
  let s' := step busy (Worker 0 (Task_returns entities_client example_now)) in
  futures s' !! 0%nat
    = Some (Failure (Exception "ValueError" "no such entity"))
  /\ futures s' !! 1%nat = Some Pending
  /\ tasks s' = [AwaitTask {| call := get_channel_id "b"; future := 1 |}].
Proof.
  destruct (C6_task_error_isolated busy 0
              {| call := get_channel_id "a"; future := 0 |}
              entities_client example_now
              (Exception "ValueError" "no such entity"))
    as (Hf & _ & _ & Hnext);
    [reflexivity|reflexivity|reflexivity|reflexivity|vm_compute; lia
    |reflexivity|].
  intros s'. fold s' in Hf, Hnext. split; [|split].
  - rewrite Hf. reflexivity.
  - rewrite Hf. reflexivity.
  - reflexivity.
Defined.

(** *** Futures that nobody resolves *)

Lemma in_flight_lookup ws w t :
  ws !! w = Some (AwaitTask t) -> future t ∈ in_flight ws.
Proof.
  intros Hw. unfold in_flight. apply list_elem_of_omap.
  exists (AwaitTask t). split; [|done]. by eapply list_elem_of_lookup_2.
Qed.

Lemma in_flight_insert f ws w pc :
  f ∉ in_flight ws ->
  (forall t, pc = AwaitTask t -> future t <> f) ->
  f ∉ in_flight (<[w := pc]> ws).
Proof.
  intros Hws Hpc Hin. unfold in_flight in *.
  apply list_elem_of_omap in Hin as (pc' & Hin & Hf).
  apply list_elem_of_lookup in Hin as (i & Hi).
  destruct (decide (i = w)) as [->|Hne].
  - assert (w < length ws)%nat
      by (apply lookup_lt_Some in Hi; by rewrite length_insert in Hi).
    rewrite list_lookup_insert_eq in Hi by done. injection Hi as <-.
    destruct pc; try done. injection Hf as Hf. by eapply Hpc.
  - rewrite list_lookup_insert_ne in Hi by done.
    apply Hws, list_elem_of_omap. exists pc'. split; [|done].
    by eapply list_elem_of_lookup_2.
Qed.

Lemma get_item_keeps f s :
  futures s !! f = Some Pending -> f ∉ (future <$> queue s) ->
  keeps_abandoned f s (get_item s).
Proof.
  intros Hp Hq. unfold keeps_abandoned, get_item.
  destruct (queue s) as [|t q] eqn:Hqs; simpl.
  - rewrite Hqs. done.
  - rewrite fmap_cons in Hq. apply not_elem_of_cons in Hq as [Hne Hq].
    split; [done|]. split; [done|]. split; [done|].
    intros t' [= <-]. done.
Qed.

Lemma loop_head_keeps f s :
  futures s !! f = Some Pending -> f ∉ (future <$> queue s) ->
  keeps_abandoned f s (loop_head s).
Proof.
  intros Hp Hq. unfold loop_head.
  destruct (running s); [|done]. destruct (connected s); [|done].
  by apply get_item_keeps.
Qed.

Lemma after_connect_keeps f r s :
  futures s !! f = Some Pending -> f ∉ (future <$> queue s) ->
  keeps_abandoned f s (after_connect r s).
Proof.
  intros Hp Hq. unfold after_connect. destruct r as [[]|e].
  - by apply (get_item_keeps f (with_connected true s)).
  - destruct (is_TimeoutError e); [done|]. by destruct (is_Exception e).
Qed.

Lemma settle_keeps f t o s :
  futures s !! f = Some Pending -> future t <> f ->
  futures (settle t o s).1 !! f = Some Pending
  /\ queue (settle t o s).1 = queue s
  /\ tasks (settle t o s).1 = tasks s.
Proof.
  intros Hp Hne. unfold settle, set_result, set_exception, task_done.
  destruct o as [v|e];
    [|destruct (is_Exception e)];
    destruct (futures s !! future t) as [[| |]|] eqn:Hl;
    simpl; rewrite ?Hl; simpl; destruct (unfinished_tasks s); simpl;
    rewrite ?lookup_insert_ne by done; done.
Qed.

Lemma after_task_keeps f t o s :
  futures s !! f = Some Pending -> f ∉ (future <$> queue s) ->
  future t <> f ->
  keeps_abandoned f s (after_task t o s).
Proof.
  intros Hp Hq Hne.
  destruct (settle_keeps f t o s Hp Hne) as (Hp' & Hq' & Ht').
  unfold after_task. destruct (settle t o s) as [s' r]. cbn [fst] in *.
  assert (keeps_abandoned f s (loop_head s')) as Hloop.
  { destruct (loop_head_keeps f s') as (? & ? & ? & ?);
      [done|congruence|]. split; [done|]. split; [done|].
    split; [congruence|done]. }
  assert (forall r', keeps_abandoned f s (s', Done r')) as Hdone.
  { intros r'. split; [done|]. split; [cbn [fst]; congruence|]. done. }
  destruct r as [[]|e]; [done|].
  destruct (is_CancelledError e); [done|]. by destruct (is_Exception e).
Qed.

Lemma resume_keeps f pc i s :
  futures s !! f = Some Pending -> f ∉ (future <$> queue s) ->
  (forall t, pc = AwaitTask t -> future t <> f) ->
  keeps_abandoned f s (resume pc i s).
Proof.
  intros Hp Hq Hpc.
  assert (keeps_abandoned f s (s, pc)) as Hsame by done.
  destruct pc, i; cbn [resume]; try done.
  - by apply loop_head_keeps.
  - by apply after_connect_keeps.
  - by apply loop_head_keeps.
  - by apply get_item_keeps.
  - apply after_task_keeps; [done|done|by apply Hpc].
Qed.

Lemma cancel_keeps f pc s :
  futures s !! f = Some Pending -> f ∉ (future <$> queue s) ->
  (forall t, pc = AwaitTask t -> future t <> f) ->
  keeps_abandoned f s (cancel pc s).
Proof.
  intros Hp Hq Hpc. destruct pc; cbn [cancel]; try done.
  apply after_task_keeps; [done|done|by apply Hpc].
Qed.

Lemma abandoned_resumed f s w pc r :
  abandoned f s -> tasks s !! w = Some pc ->
  keeps_abandoned f s r ->
  abandoned f (with_tasks (<[w := r.2]> (tasks r.1)) r.1).
Proof.
  intros (Hp & Hq & Hf) Hw (Hp' & Hq' & Ht' & Hpc').
  split; [done|]. split; [done|]. cbn [tasks with_tasks]. rewrite Ht'.
  by apply in_flight_insert.
Qed.

Lemma abandoned_not_running f s w pc :
  abandoned f s -> tasks s !! w = Some pc ->
  forall t, pc = AwaitTask t -> future t <> f.
Proof.
  intros (_ & _ & Hf) Hw t -> <-. apply Hf. by eapply in_flight_lookup.
Qed.

Lemma put_abandoned f c s : abandoned f s -> abandoned f (put c s).
Proof.
  intros (Hp & Hq & Hf). unfold put, abandoned.
  cbn [futures queue tasks observe with_unfinished_tasks with_queue with_futures].
  assert (fresh (dom (futures s)) <> f) as Hne.
  { intros Heq. apply (is_fresh (dom (futures s))). rewrite Heq.
    apply elem_of_dom. by eexists. }
  split; [by rewrite lookup_insert_ne|]. split; [|done].
  rewrite fmap_app. apply not_elem_of_app. split; [done|].
  cbn. apply not_elem_of_cons. split; [done|]. apply not_elem_of_nil.
Qed.

Lemma start_finish_abandoned f s : abandoned f s -> abandoned f (start_finish s).
Proof.
  intros (Hp & Hq & Hf). split; [done|]. split; [done|].
  unfold start_finish. cbn [tasks with_tasks]. unfold in_flight.
  rewrite omap_app. cbn. by rewrite app_nil_r.
Qed.

Lemma stop_cancel_abandoned f s : abandoned f s -> abandoned f (stop_cancel s).
Proof.
  intros Ha. unfold stop_cancel. destruct (running s); [|done]. cbn [negb].
  assert (abandoned f (with_running false s)) as Ha' by done.
  cbn [worker_task with_running].
  destruct (worker_task s) as [w|]; [|done].
  cbn [tasks with_running].
  destruct (tasks s !! w) as [pc|] eqn:Hw; [|done].
  pose proof (cancel_keeps f pc (with_running false s)) as Hk.
  destruct (cancel pc (with_running false s)) as [s2 pc'] eqn:Hc.
  apply (abandoned_resumed f (with_running false s) w pc (s2, pc'));
    [done|done|].
  destruct Ha' as (? & ? & ?). apply Hk; [done|done|].
  by eapply abandoned_not_running.
Qed.

Lemma abandoned_step f s ev : abandoned f s -> abandoned f (step s ev).
Proof.
  intros Ha. destruct ev as [| |c|k r| |w i]; cbn [step].
  - by destruct (running s).
  - by apply stop_cancel_abandoned.
  - destruct (running s); cbn [negb]; [by apply put_abandoned|done].
  - destruct (starting s !! k) as [caller|]; [|done].
    destruct r as [[]|e]; [|done].
    assert (abandoned f (start_finish (with_starting (delete k (starting s)) s)))
      by by apply start_finish_abandoned.
    destruct caller; [by apply put_abandoned|done].
  - done.
  - destruct (tasks s !! w) as [pc|] eqn:Hw; [|done].
    pose proof (resume_keeps f pc i s) as Hk.
    destruct (resume pc i s) as [s' pc'] eqn:Hres.
    apply (abandoned_resumed f s w pc (s', pc')); [done|done|].
    destruct Ha as (? & ? & ?). apply Hk; [done|done|].
    eapply abandoned_not_running; [|done]. done.
Qed.

(** An abandoned future stays pending whatever happens next. *)
Lemma abandoned_forever f s evs :
  abandoned f s -> abandoned f (run s evs).
Proof.
  revert s. induction evs as [|ev evs IH]; intros s Ha; [done|].
  apply IH. by apply abandoned_step.
Qed.

(** *** Stopping *)

(** C1 (as amended): [stop()] on a running queue ends the worker named by
    [worker_task] and resolves no future: every task still in the queue
    stays in the queue, in place, and its future stays as it was, so
    pending stays pending. The code has no shutdown error and drains
    nothing. *)
Theorem C1_stop_leaves_queue_unresolved s w pc d :
  running s = true ->
  worker_task s = Some w ->
  tasks s !! w = Some pc ->
  let s' := (stop d s).1 in
  running s' = false
  /\ queue s' = queue s
  /\ futures s' = futures s
  /\ history s' = history s
  /\ (exists pc', tasks s' !! w = Some pc' /\ ended pc' = true)
  /\ (forall t, t ∈ queue s -> futures s !! future t = Some Pending ->
        t ∈ queue s' /\ futures s' !! future t = Some Pending).
Proof.
  intros Hr Hw Hpc s'.
  destruct (stop_cancel_spec s w pc Hr Hw Hpc) as (n & pc' & Hs & He & _).
  assert (w < length (tasks s))%nat as Hlt by (eapply lookup_lt_Some; eauto).
  assert (running s' = false /\ queue s' = queue s /\ futures s' = futures s
          /\ history s' = history s /\ tasks s' !! w = Some pc')
    as (H1 & H2 & H3 & H4 & H5).
  { unfold s'. destruct (stop_state d s) as [->| ->]; rewrite Hs;
      cbn [running queue futures history tasks with_connected with_tasks
           with_unfinished_tasks with_running];
      by rewrite list_lookup_insert_eq. }
  do 4 (split; [done|]). split; [by exists pc'|].
  intros t Ht Hp. by rewrite H2, H3.
Qed.

Lemma C1_example :
  let s' := (stop (Return ()) reconnecting).1 in
  running s' = false /\ tasks s' = [Done (Raise CancelledError)]
  /\ queue s' = queue reconnecting.
Proof.
  destruct (C1_stop_leaves_queue_unresolved reconnecting 0 (AwaitConnect 10)
              (Return ())) as (Hr & Hq & _);
    [reflexivity|reflexivity|reflexivity|].
  intros s'. split; [exact Hr|]. split; [reflexivity|exact Hq].
Defined.

(** C1 as stated fails: [stop()] with two tasks in the queue (and a third
    one being executed) leaves both in the queue with their futures
    pending, and the worker has ended. *)
Lemma C1_queued_tasks_left_pending :
  let s' := (stop (Return ()) busy).1 in
  queue s' = [ {| call := get_channel_id "b"; future := 1 |};
               {| call := get_today_messages_by_id 5; future := 2 |} ]
  /\ futures s' !! 1%nat = Some Pending
  /\ futures s' !! 2%nat = Some Pending
  /\ tasks s' = [Done (Return ())]
  /\ resolutions (history s') = [].
Proof. vm_compute. repeat split; reflexivity. Qed.

(** C2 (as amended): [stop()] while a worker executes a task throws
    [CancelledError] into the task call: the worker ends without setting
    the task's future, which stays pending, and since the task is neither
    in the queue nor executed by anyone, nothing that happens later
    resolves it. The caller gets neither a result nor an error. *)
Theorem C2_stop_aborts_task_in_flight s w t d :
  running s = true ->
  worker_task s = Some w ->
  tasks s !! w = Some (AwaitTask t) ->
  futures s !! future t = Some Pending ->
  future t ∉ (future <$> queue s) ->
  (forall w' t', tasks s !! w' = Some (AwaitTask t') ->
     future t' = future t -> w' = w) ->
  let s' := (stop d s).1 in
  tasks s' !! w = Some (Done (Return ()))
  /\ futures s' !! future t = Some Pending
  /\ (forall evs, futures (run s' evs) !! future t = Some Pending).
Proof.
  intros Hr Hw Hpc Hp Hq Honly s'.
  destruct (stop_cancel_spec s w _ Hr Hw Hpc) as (n & pc' & Hs & _ & Hd).
  rewrite (Hd t eq_refl) in Hs. clear Hd pc'.
  assert (w < length (tasks s))%nat as Hlt by (eapply lookup_lt_Some; eauto).
  assert (tasks s' = <[w := Done (Return ())]> (tasks s)
          /\ futures s' = futures s /\ queue s' = queue s)
    as (Ht' & Hf' & Hq').
  { unfold s'. destruct (stop_state d s) as [->| ->]; by rewrite Hs. }
  assert (abandoned (future t) s') as Ha.
  { split; [by rewrite Hf'|]. split; [by rewrite Hq'|].
    rewrite Ht'. intros Hin. unfold in_flight in Hin.
    apply list_elem_of_omap in Hin as (pc & Hin & Hfut).
    apply list_elem_of_lookup in Hin as (i & Hi).
    destruct (decide (i = w)) as [->|Hne].
    - rewrite list_lookup_insert_eq in Hi by done. by injection Hi as <-.
    - rewrite list_lookup_insert_ne in Hi by done.
      destruct pc as [| | | |t'|]; try done. injection Hfut as Hfut.
      by apply Hne, (Honly i t'). }
  split; [by rewrite Ht', list_lookup_insert_eq|].
  split; [by destruct Ha|].
  intros evs. by destruct (abandoned_forever _ _ evs Ha).
Qed.

Lemma C2_example :
  futures (run (stop (Return ()) busy).1 restart_and_serve) !! 0%nat
    = Some Pending
  /\ futures (run (stop (Return ()) busy).1 restart_and_serve) !! 1%nat
     = Some (Failure (Exception "ValueError" "no such entity")).
Proof.
  split; [|reflexivity].
  apply (C2_stop_aborts_task_in_flight busy 0
           {| call := get_channel_id "a"; future := 0 |} (Return ()));
    try reflexivity.
  - vm_compute. intros Hin.
    repeat (apply elem_of_cons in Hin as [Hin|Hin]; [discriminate|]).
    by apply elem_of_nil in Hin.
  - intros [|w'] t' Hw' _; [done|]. discriminate.
Defined.

(** C2 as stated fails: the task being executed when [stop()] is called
    is not finished. Its future is still pending after the stop, the
    worker has ended, and the platform's answer to the call no longer
    reaches anyone. *)
Lemma C2_task_in_flight_left_pending :
  let s' := (stop (Return ()) busy).1 in
  tasks busy = [AwaitTask {| call := get_channel_id "a"; future := 0 |}]
  /\ tasks s' = [Done (Return ())]
  /\ futures s' !! 0%nat = Some Pending
  /\ run s' [Worker 0 (Task_returns entities_client example_now)] = s'.
Proof. vm_compute. repeat split; reflexivity. Qed.

(** *** Two lazy starts at once *)

(** C5 fails on a queue that two producers start lazily at the same time:
    the tasks are put and taken in the order 0, 1, each by a worker of its
    own, and the future of task 1 is resolved before the future of
    task 0. *)
Lemma C5_lazy_start_race_out_of_order :
  let s := run init lazy_start_race in
  puts (history s) = [0; 1]%nat
  /\ gots (history s) = [0; 1]%nat
  /\ resolutions (history s) = [1; 0]%nat
  /\ length (tasks s) = 2%nat
  /\ tasks (run init (take 6 lazy_start_race))
     = [AwaitTask {| call := get_channel_id "news"; future := 0 |};
        AwaitTask {| call := get_channel_id "alice"; future := 1 |}].
Proof. vm_compute. repeat split; reflexivity. Qed.

(** ** Invariants of every run *)

Lemma run_app s evs evs' : run s (evs ++ evs') = run (run s evs) evs'.
Proof. unfold run. apply fold_left_app. Qed.

Lemma run_invariant (P : state -> Prop) :
  (forall s ev, P s -> P (step s ev)) ->
  forall evs s, P s -> P (run s evs).
Proof.
  intros Hstep evs. induction evs as [|ev evs IH]; intros s Hs; [done|].
  apply IH. by apply Hstep.
Qed.

Lemma in_flight_cons pc ws : in_flight (pc :: ws) = executing pc ++ in_flight ws.
Proof. by destruct pc. Qed.

Lemma in_flight_app ws ws' : in_flight (ws ++ ws') = in_flight ws ++ in_flight ws'.
Proof. unfold in_flight. apply omap_app. Qed.

(** The futures in flight, with the one of worker [w] put first. *)
Lemma in_flight_insert_perm ws w pc :
  (w < length ws)%nat ->
  in_flight (<[w := pc]> ws) ≡ₚ executing pc ++ in_flight (<[w := Created]> ws).
Proof.
  revert w. induction ws as [|pc0 ws IH]; intros w Hw; [simpl in Hw; lia|].
  destruct w as [|w]; cbn [list_insert insert].
  - by rewrite !in_flight_cons.
  - rewrite !in_flight_cons, IH by (simpl in Hw; lia).
    by rewrite !app_assoc, (Permutation_app_comm (executing pc0)).
Qed.

Lemma in_flight_lookup_perm ws w pc :
  ws !! w = Some pc ->
  in_flight ws ≡ₚ executing pc ++ in_flight (<[w := Created]> ws).
Proof.
  intros Hw. rewrite <- (list_insert_id ws w pc) at 1 by done.
  apply in_flight_insert_perm. by eapply lookup_lt_Some.
Qed.

Lemma consistent_perm live live' s :
  live ≡ₚ live' -> consistent live s -> consistent live' s.
Proof.
  intros Hperm (Ha & Hb & Hc & Hd & He & Hf).
  assert ((future <$> queue s) ++ live ≡ₚ (future <$> queue s) ++ live')
    as Hw by by rewrite Hperm.
  unfold consistent. cbn zeta. rewrite <- Hw.
  split; [done|]. split; [done|]. split; [done|]. split; [|done].
  intros f Hin. apply Hd. by rewrite Hw.
Qed.

Lemma sound_worker s w pc :
  tasks s !! w = Some pc ->
  sound s <-> consistent (executing pc ++ in_flight (<[w := Created]> (tasks s))) s.
Proof.
  intros Hw. pose proof (in_flight_lookup_perm _ _ _ Hw) as Hperm.
  split; apply consistent_perm; by rewrite Hperm.
Qed.

Lemma sound_resumed s s' w pc' others :
  tasks s' = tasks s -> (w < length (tasks s))%nat ->
  others = in_flight (<[w := Created]> (tasks s)) ->
  consistent (executing pc' ++ others) s' ->
  sound (with_tasks (<[w := pc']> (tasks s')) s').
Proof.
  intros Ht Hw -> Hc. unfold sound. cbn [tasks with_tasks]. rewrite Ht.
  eapply consistent_perm; [symmetry; by apply in_flight_insert_perm|].
  done.
Qed.

Lemma history_observe o s : history (observe o s) = history s ++ [o].
Proof. done. Qed.

Lemma puts_snoc h o :
  puts (h ++ [o]) = puts h ++ match o with Put f => [f] | _ => [] end.
Proof. unfold puts. rewrite omap_app. by destruct o. Qed.

Lemma gots_snoc h o :
  gots (h ++ [o]) = gots h ++ match o with Got f => [f] | _ => [] end.
Proof. unfold gots. rewrite omap_app. by destruct o. Qed.

Lemma resolutions_snoc h o :
  resolutions (h ++ [o])
  = resolutions h ++ match o with Resolved f => [f] | _ => [] end.
Proof. unfold resolutions. rewrite omap_app. by destruct o. Qed.

(** The effect of the inner [try] on a task whose future is pending, with
    a count of unfinished tasks that is not zero. *)
Lemma settle_pending t o s n :
  futures s !! future t = Some Pending ->
  unfinished_tasks s = S n ->
  settle t o s =
  match o with
  | Return v =>
      (with_unfinished_tasks n
         (observe (Resolved (future t))
            (with_futures (<[future t := Result v]> (futures s)) s)),
       Return ())
  | Raise e =>
      if is_Exception e
      then (with_unfinished_tasks n
              (observe (Resolved (future t))
                 (with_futures (<[future t := Failure e]> (futures s)) s)),
            Return ())
      else (with_unfinished_tasks n s, Raise e)
  end.
Proof.
  intros Hp Hn. unfold settle, set_result, set_exception, task_done.
  destruct o as [v|e]; [|destruct (is_Exception e)];
    rewrite ?Hp; cbn [unfinished_tasks with_futures observe]; rewrite Hn;
    reflexivity.
Qed.

Lemma consistent_head f live s :
  consistent (f :: live) s ->
  futures s !! f = Some Pending
  /\ (f ∉ resolutions (history s))
  /\ exists n, unfinished_tasks s = S n
               /\ n = length ((future <$> queue s) ++ live).
Proof.
  intros (Ha & Hb & Hc & Hd & He & Hf).
  assert (futures s !! f = Some Pending) as Hp.
  { apply Hd, elem_of_app. right. by left. }
  split; [done|]. split.
  - intros Hin. destruct (Hf f Hin) as (st & Hst & Hne). congruence.
  - eexists. split; [|done]. rewrite Hb, !length_app. simpl. lia.
Qed.

Lemma consistent_resolve f st live s n :
  consistent (f :: live) s -> st <> Pending -> unfinished_tasks s = S n ->
  consistent live
    (with_unfinished_tasks n
       (observe (Resolved f) (with_futures (<[f := st]> (futures s)) s))).
Proof.
  intros Hc Hst Hn.
  destruct (consistent_head f live s Hc) as (Hp & Hres & n' & Hn' & Hlen).
  destruct Hc as (Ha & Hb & Hnd & Hd & He & Hf).
  assert (n = n') as <- by congruence.
  assert ((future <$> queue s) ++ f :: live
          ≡ₚ f :: ((future <$> queue s) ++ live)) as Hperm
    by (symmetry; apply Permutation_middle).
  rewrite Hperm in Hnd. apply NoDup_cons in Hnd as [Hnotin Hnd].
  unfold consistent.
  cbn [queue unfinished_tasks futures history with_unfinished_tasks observe
       with_futures].
  rewrite gots_snoc, puts_snoc, resolutions_snoc, !app_nil_r.
  split; [done|]. split; [done|]. split; [done|]. split; [|split].
  - intros g Hg. assert (f <> g) by (intros ->; done).
    rewrite lookup_insert_ne by done. apply Hd. rewrite Hperm. by right.
  - apply NoDup_app. split; [done|]. split; [|apply NoDup_singleton].
    intros g Hg ->%list_elem_of_singleton. done.
  - intros g [Hg| ->%list_elem_of_singleton]%elem_of_app.
    + destruct (Hf g Hg) as (st' & Hst' & Hne').
      exists st'. split; [|done].
      rewrite lookup_insert_ne; [done|]. intros ->. congruence.
    + exists st. split; [|done]. by rewrite lookup_insert_eq.
Qed.

Lemma consistent_drop f live s n :
  consistent (f :: live) s -> unfinished_tasks s = S n ->
  consistent live (with_unfinished_tasks n s).
Proof.
  intros Hc Hn.
  destruct (consistent_head f live s Hc) as (Hp & Hres & n' & Hn' & Hlen).
  destruct Hc as (Ha & Hb & Hnd & Hd & He & Hf).
  assert (n = n') as <- by congruence.
  assert ((future <$> queue s) ++ f :: live
          ≡ₚ f :: ((future <$> queue s) ++ live)) as Hperm
    by (symmetry; apply Permutation_middle).
  rewrite Hperm in Hnd. apply NoDup_cons in Hnd as [Hnotin Hnd].
  unfold consistent.
  cbn [queue unfinished_tasks futures history with_unfinished_tasks].
  split; [done|]. split; [done|]. split; [done|]. split; [|done].
  intros g Hg. apply Hd. rewrite Hperm. by right.
Qed.

Lemma settle_consistent t o live s :
  consistent (future t :: live) s ->
  consistent live (settle t o s).1 /\ tasks (settle t o s).1 = tasks s.
Proof.
  intros Hc.
  destruct (consistent_head _ _ _ Hc) as (Hp & _ & n & Hn & _).
  rewrite (settle_pending t o s n) by done.
  destruct o as [v|e]; [|destruct (is_Exception e)]; cbn [fst].
  - split; [by apply consistent_resolve|done].
  - split; [by apply consistent_resolve|done].
  - split; [by eapply consistent_drop|done].
Qed.

Lemma get_item_consistent live s :
  consistent live s ->
  consistent (executing (get_item s).2 ++ live) (get_item s).1
  /\ tasks (get_item s).1 = tasks s.
Proof.
  intros (Ha & Hb & Hnd & Hd & He & Hf). unfold get_item.
  destruct (queue s) as [|t q] eqn:Hq; cbn [fst snd executing app].
  - split; [|done]. unfold consistent. rewrite Hq. done.
  - split; [|done]. rewrite fmap_cons in *.
    assert ((future <$> q) ++ future t :: live
            ≡ₚ (future t :: (future <$> q)) ++ live) as Hperm
      by (symmetry; apply Permutation_middle).
    unfold consistent.
    cbn [queue unfinished_tasks futures history with_queue observe].
    rewrite gots_snoc, puts_snoc, resolutions_snoc, !app_nil_r.
    rewrite Hperm. split; [by rewrite <- Ha, <- app_assoc|].
    split; [done|]. split; [done|]. split; [|done].
    intros f Hin. apply Hd. by rewrite <- Hperm.
Qed.

Lemma loop_head_consistent live s :
  consistent live s ->
  consistent (executing (loop_head s).2 ++ live) (loop_head s).1
  /\ tasks (loop_head s).1 = tasks s.
Proof.
  intros Hc. unfold loop_head.
  destruct (running s); [|done]. destruct (connected s); [|done].
  by apply get_item_consistent.
Qed.

Lemma after_connect_consistent r live s :
  consistent live s ->
  consistent (executing (after_connect r s).2 ++ live) (after_connect r s).1
  /\ tasks (after_connect r s).1 = tasks s.
Proof.
  intros Hc. unfold after_connect. destruct r as [[]|e].
  - by apply (get_item_consistent live (with_connected true s)).
  - destruct (is_TimeoutError e); [done|]. by destruct (is_Exception e).
Qed.

Lemma after_task_consistent t o live s :
  consistent (future t :: live) s ->
  consistent (executing (after_task t o s).2 ++ live) (after_task t o s).1
  /\ tasks (after_task t o s).1 = tasks s.
Proof.
  intros Hc. destruct (settle_consistent t o live s Hc) as [Hc' Ht'].
  unfold after_task. destruct (settle t o s) as [s' r]. cbn [fst] in *.
  pose proof (loop_head_consistent live s' Hc') as [Hl Hlt].
  assert (tasks (loop_head s').1 = tasks s) as Hlt' by congruence.
  destruct r as [[]|e]; [done|].
  destruct (is_CancelledError e); [done|]. by destruct (is_Exception e).
Qed.

Lemma resume_consistent pc i live s :
  consistent (executing pc ++ live) s ->
  consistent (executing (resume pc i s).2 ++ live) (resume pc i s).1
  /\ tasks (resume pc i s).1 = tasks s.
Proof.
  intros Hc. destruct pc, i; cbn [resume fst snd]; try done.
  - by apply loop_head_consistent.
  - by apply after_connect_consistent.
  - by apply loop_head_consistent.
  - by apply get_item_consistent.
  - by apply after_task_consistent.
Qed.

Lemma cancel_consistent pc live s :
  consistent (executing pc ++ live) s ->
  consistent (executing (cancel pc s).2 ++ live) (cancel pc s).1
  /\ tasks (cancel pc s).1 = tasks s.
Proof.
  intros Hc. destruct pc; cbn [cancel fst snd]; try done.
  by apply after_task_consistent.
Qed.

Lemma put_sound c s : sound s -> sound (put c s).
Proof.
  intros (Ha & Hb & Hnd & Hd & He & Hf). unfold sound, consistent, put.
  cbn [queue unfinished_tasks futures history tasks observe
       with_unfinished_tasks with_queue with_futures].
  set (fut := fresh (dom (futures s))).
  assert (futures s !! fut = None) as Hfresh.
  { apply not_elem_of_dom, is_fresh. }
  assert (fut ∉ (future <$> queue s) ++ in_flight (tasks s)) as Hnew.
  { intros Hin. apply Hd in Hin. congruence. }
  rewrite gots_snoc, puts_snoc, resolutions_snoc, !app_nil_r, fmap_app.
  cbn [fmap list_fmap future].
  assert (((future <$> queue s) ++ [fut]) ++ in_flight (tasks s)
          ≡ₚ fut :: ((future <$> queue s) ++ in_flight (tasks s))) as Hperm.
  { rewrite <- app_assoc. symmetry. apply Permutation_middle. }
  rewrite Hperm.
  split; [by rewrite app_assoc, Ha|]. split; [simpl; by rewrite Hb|].
  split; [by apply NoDup_cons|]. split; [|split; [done|]].
  - intros f Hin. rewrite Hperm in Hin.
    apply elem_of_cons in Hin as [->|Hin]; [by rewrite lookup_insert_eq|].
    rewrite lookup_insert_ne; [by apply Hd|]. intros <-. done.
  - intros f Hin. destruct (Hf f Hin) as (st & Hst & Hne).
    exists st. split; [|done]. rewrite lookup_insert_ne; [done|].
    intros <-. congruence.
Qed.

Lemma start_finish_sound s : sound s -> sound (start_finish s).
Proof.
  unfold sound, start_finish. cbn [tasks with_tasks].
  rewrite in_flight_app. cbn. by rewrite app_nil_r.
Qed.

Lemma stop_cancel_sound s : sound s -> sound (stop_cancel s).
Proof.
  intros Hs. unfold stop_cancel. destruct (running s); [|done]. cbn [negb].
  cbn [worker_task with_running tasks].
  destruct (worker_task s) as [w|]; [|done].
  destruct (tasks s !! w) as [pc|] eqn:Hw; [|done].
  assert (w < length (tasks s))%nat by (by eapply lookup_lt_Some).
  apply (sound_worker s w pc Hw) in Hs.
  pose proof (cancel_consistent pc _ (with_running false s) Hs) as [Hc Ht].
  destruct (cancel pc (with_running false s)) as [s2 pc'].
  by eapply sound_resumed.
Qed.

Lemma step_sound s ev : sound s -> sound (step s ev).
Proof.
  intros Hs. destruct ev as [| |c|k r| |w i]; cbn [step].
  - by destruct (running s).
  - by apply stop_cancel_sound.
  - destruct (running s); cbn [negb]; [by apply put_sound|done].
  - destruct (starting s !! k) as [caller|]; [|done].
    destruct r as [[]|e]; [|done].
    assert (sound (start_finish (with_starting (delete k (starting s)) s)))
      by by apply start_finish_sound.
    destruct caller; [by apply put_sound|done].
  - done.
  - destruct (tasks s !! w) as [pc|] eqn:Hw; [|done].
    assert (w < length (tasks s))%nat by (by eapply lookup_lt_Some).
    apply (sound_worker s w pc Hw) in Hs.
    pose proof (resume_consistent pc i _ s Hs) as [Hc Ht].
    destruct (resume pc i s) as [s' pc'].
    by eapply sound_resumed.
Qed.

Lemma sound_init : sound init.
Proof.
  unfold sound, consistent. cbn.
  split; [done|]. split; [done|]. split; [apply NoDup_nil_2|].
  split; [by intros f ?%elem_of_nil|]. split; [apply NoDup_nil_2|].
  by intros f ?%elem_of_nil.
Qed.

Lemma sound_run evs : sound (run init evs).
Proof. apply run_invariant; [apply step_sound|apply sound_init]. Qed.

(** X1: in every run, whatever the number of workers, the tasks are taken
    from the queue in the order in which they were put: the futures taken
    so far, followed by those still in the queue, are the futures put so
    far. *)
Theorem taken_in_order_of_submission evs :
  let s := run init evs in
  gots (history s) ++ (future <$> queue s) = puts (history s).
Proof. by destruct (sound_run evs) as (H & _). Qed.

(** X2: in every run the queue's count of unfinished tasks is the number
    of queued tasks plus the number of tasks being executed; so
    [task_done()] is never called too often. *)
Theorem unfinished_tasks_counted evs :
  let s := run init evs in
  unfinished_tasks s = (length (queue s) + length (in_flight (tasks s)))%nat.
Proof.
  destruct (sound_run evs) as (_ & H & _). cbn zeta in *.
  by rewrite H, length_app, length_fmap.
Qed.

(** X3: in every run the futures of the queued tasks and of the tasks
    being executed are pairwise distinct and all pending: no task waits
    on a future that is already set, and no two tasks share a future. *)
Theorem waiting_futures_pending_and_distinct evs :
  let s := run init evs in
  NoDup ((future <$> queue s) ++ in_flight (tasks s))
  /\ (forall f, f ∈ (future <$> queue s) ++ in_flight (tasks s) ->
        futures s !! f = Some Pending).
Proof. by destruct (sound_run evs) as (_ & _ & H1 & H2 & _). Qed.

Lemma waiting_futures_pending_and_distinct_example :
  futures busy !! 1%nat = Some Pending.
Proof.
  destruct (waiting_futures_pending_and_distinct
              [Call_start; Client_started 0 (Return ());
               Call_enqueue (get_channel_id "a");
               Call_enqueue (get_channel_id "b");
               Call_enqueue (get_today_messages_by_id 5);
               Worker 0 Run]) as [_ H].
  refine (H 1%nat _). vm_compute. apply list_elem_of_In. left. reflexivity.
Defined.

(** X4: in every run a future is resolved at most once and every
    resolved future is done (it holds a result or an exception). The
    future of a task that a worker is executing is still pending and not
    yet resolved, so the [set_result] or [set_exception] that ends the
    task never hits a future that is already set: the inner [try] raises
    neither [InvalidStateError] nor the [ValueError] of [task_done()],
    and it resolves that future exactly when the call returned or raised
    an [Exception]. *)
Theorem resolved_at_most_once evs :
  let s := run init evs in
  NoDup (resolutions (history s))
  /\ (forall f, f ∈ resolutions (history s) ->
        exists st, futures s !! f = Some st /\ st <> Pending)
  /\ (forall w t, tasks s !! w = Some (AwaitTask t) ->
        futures s !! future t = Some Pending
        /\ (future t ∉ resolutions (history s))
        /\ forall o,
             (settle t o s).2
             = match o with
               | Return _ => Return ()
               | Raise e => if is_Exception e then Return () else Raise e
               end
             /\ resolutions (history (settle t o s).1)
                = resolutions (history s)
                    ++ match delivered o with
                       | Pending => []
                       | _ => [future t]
                       end).
Proof.
  intros s. pose proof (sound_run evs) as Hs. fold s in Hs.
  pose proof Hs as (_ & _ & _ & _ & H1 & H2).
  split; [done|]. split; [done|]. intros w t Hw.
  apply (sound_worker s w _ Hw) in Hs.
  destruct (consistent_head _ _ _ Hs) as (Hp & Hres & n & Hn & _).
  split; [done|]. split; [done|]. intros o.
  rewrite (settle_pending t o s n) by done. unfold delivered.
  destruct o as [v|e]; [|destruct (is_Exception e)];
    cbn [fst snd history with_unfinished_tasks observe with_futures];
    rewrite ?resolutions_snoc, ?app_nil_r; done.
Qed.

Lemma resolved_at_most_once_example :
  exists st, futures (run init orderly_events) !! 1%nat = Some st
             /\ st <> Pending.
Proof.
  destruct (resolved_at_most_once orderly_events) as (_ & H & _).
  refine (H 1%nat _). vm_compute. apply list_elem_of_In. right. left.
  reflexivity.
Defined.

Lemma after_task_futures t o s :
  futures (after_task t o s).1 = futures (settle t o s).1
  /\ tasks (after_task t o s).1 = tasks (settle t o s).1
  /\ running (after_task t o s).1 = running (settle t o s).1.
Proof.
  unfold after_task. destruct (settle t o s) as [s' r]. cbn [fst].
  destruct (loop_head_frame s') as (Hf & Hr & Ht & _). cbn zeta in *.
  destruct r as [[]|e]; [done|].
  destruct (is_CancelledError e); [done|]. by destruct (is_Exception e).
Qed.

Lemma task_returns_sets_future s w t client now :
  sound s ->
  tasks s !! w = Some (AwaitTask t) ->
  let s' := step s (Worker w (Task_returns client now)) in
  futures s' !! future t = Some (delivered (run_task client now (call t)))
  /\ (forall f, f <> future t -> futures s' !! f = futures s !! f).
Proof.
  intros Hs Hw s'.
  apply (sound_worker s w _ Hw) in Hs.
  destruct (consistent_head _ _ _ Hs) as (Hp & _ & n & Hn & _).
  set (o := run_task client now (call t)).
  assert (futures s' = futures (settle t o s).1) as ->.
  { unfold s'. cbn [step]. rewrite Hw. cbn [resume]. fold o.
    destruct (after_task_futures t o s) as (Hf & _).
    by destruct (after_task t o s). }
  rewrite (settle_pending t o s n) by done. unfold delivered.
  destruct o as [v|e]; [|destruct (is_Exception e)]; cbn [fst futures
    with_unfinished_tasks observe with_futures].
  - split; [by rewrite lookup_insert_eq|].
    intros f Hne. by rewrite lookup_insert_ne.
  - split; [by rewrite lookup_insert_eq|].
    intros f Hne. by rewrite lookup_insert_ne.
  - done.
Qed.

(** X5: in every run, when the task call a worker is awaiting ends, the
    future of that task, and no other, is set to exactly what the call
    produced: its result, or the [Exception] it raised; it is left pending
    when the call ended by [CancelledError] or another [BaseException]. *)
Theorem task_outcome_delivered evs w t client now :
  let s := run init evs in
  tasks s !! w = Some (AwaitTask t) ->
  let s' := step s (Worker w (Task_returns client now)) in
  futures s' !! future t = Some (delivered (run_task client now (call t)))
  /\ (forall f, f <> future t -> futures s' !! f = futures s !! f).
Proof.
  intros s Hw. apply task_returns_sets_future; [apply sound_run|done].
Qed.

Lemma task_outcome_delivered_example :
  let s' := step busy (Worker 0 (Task_returns entities_client example_now)) in
  futures s' !! 0%nat
    = Some (Failure (Exception "ValueError" "no such entity"))
  /\ futures s' !! 2%nat = Some Pending.
Proof.
  destruct (task_outcome_delivered
              [Call_start; Client_started 0 (Return ());
               Call_enqueue (get_channel_id "a");
               Call_enqueue (get_channel_id "b");
               Call_enqueue (get_today_messages_by_id 5);
               Worker 0 Run]
              0 {| call := get_channel_id "a"; future := 0 |}
              entities_client example_now) as [Hf Hother];
    [reflexivity|].
  split; [exact Hf|]. rewrite Hother by discriminate. reflexivity.
Defined.

(** *** A future is set once and for all *)

Lemma keeps_done_refl m : keeps_done m m.
Proof. by intros f st. Qed.

Lemma keeps_done_trans m1 m2 m3 :
  keeps_done m1 m2 -> keeps_done m2 m3 -> keeps_done m1 m3.
Proof. intros H12 H23 f st Hf Hst. apply H23; [|done]. by apply H12. Qed.

Lemma keeps_done_insert m f st :
  (m !! f = Some Pending \/ m !! f = None) -> keeps_done m (<[f := st]> m).
Proof.
  intros Hf g st' Hg Hst'. rewrite lookup_insert_ne; [done|].
  intros <-. destruct Hf; congruence.
Qed.

Lemma settle_keeps_done t o s :
  keeps_done (futures s) (futures (settle t o s).1).
Proof.
  unfold settle, set_result, set_exception, task_done.
  destruct o as [v|e]; [|destruct (is_Exception e)];
    destruct (futures s !! future t) as [[| |]|] eqn:Hl;
    simpl; rewrite ?Hl; simpl; destruct (unfinished_tasks s); simpl;
    (apply keeps_done_refl || (apply keeps_done_insert; by left)).
Qed.

Lemma resume_keeps_done pc i s :
  keeps_done (futures s) (futures (resume pc i s).1).
Proof.
  destruct pc, i; cbn [resume fst]; try apply keeps_done_refl.
  - destruct (loop_head_frame s) as (-> & _). apply keeps_done_refl.
  - unfold after_connect. destruct r as [[]|e].
    + unfold get_item. destruct (queue _); apply keeps_done_refl.
    + destruct (is_TimeoutError e); [apply keeps_done_refl|].
      destruct (is_Exception e); apply keeps_done_refl.
  - destruct (loop_head_frame s) as (-> & _). apply keeps_done_refl.
  - unfold get_item. destruct (queue s); apply keeps_done_refl.
  - destruct (after_task_futures t (run_task client now (call t)) s) as (-> & _).
    apply settle_keeps_done.
Qed.

Lemma cancel_keeps_done pc s : keeps_done (futures s) (futures (cancel pc s).1).
Proof.
  destruct pc; cbn [cancel fst]; try apply keeps_done_refl.
  destruct (after_task_futures t (Raise CancelledError) s) as (-> & _).
  apply settle_keeps_done.
Qed.

Lemma put_keeps_done c s : keeps_done (futures s) (futures (put c s)).
Proof.
  unfold put. cbn [futures observe with_unfinished_tasks with_queue with_futures].
  apply keeps_done_insert. right. apply not_elem_of_dom, is_fresh.
Qed.

Lemma step_keeps_done s ev : keeps_done (futures s) (futures (step s ev)).
Proof.
  destruct ev as [| |c|k r| |w i]; cbn [step].
  - destruct (running s); apply keeps_done_refl.
  - unfold stop_cancel. destruct (running s); [|apply keeps_done_refl].
    cbn [negb worker_task with_running tasks].
    destruct (worker_task s) as [w|]; [|apply keeps_done_refl].
    destruct (tasks s !! w) as [pc|]; [|apply keeps_done_refl].
    pose proof (cancel_keeps_done pc (with_running false s)) as Hk.
    by destruct (cancel pc (with_running false s)).
  - destruct (running s); cbn [negb]; [apply put_keeps_done|apply keeps_done_refl].
  - destruct (starting s !! k) as [caller|]; [|apply keeps_done_refl].
    destruct r as [[]|e]; [|apply keeps_done_refl].
    destruct caller; [|apply keeps_done_refl].
    apply (put_keeps_done t (start_finish (with_starting _ s))).
  - apply keeps_done_refl.
  - destruct (tasks s !! w) as [pc|]; [|apply keeps_done_refl].
    pose proof (resume_keeps_done pc i s) as Hk.
    by destruct (resume pc i s).
Qed.

(** X6: a future is set once and for all. From any state, a future that
    holds a result or an exception holds the same one after any events:
    no later task, put, stop or restart sets it again or resets it. *)
Theorem done_future_is_final s evs f st :
  futures s !! f = Some st -> st <> Pending ->
  futures (run s evs) !! f = Some st.
Proof.
  revert s. induction evs as [|ev evs IH]; intros s Hf Hst; [done|].
  apply IH; [|done]. by apply (step_keeps_done s ev).
Qed.

Lemma done_future_is_final_example :
  futures (run served_once
             [Call_stop; Call_enqueue (get_channel_id "alice");
              Client_started 0 (Return ()); Worker 1 Run;
              Worker 1 (Task_returns entities_client example_now)])
    !! 0%nat
  = Some (Result (Channel (PyInt 123) PyNone)).
Proof.
  apply (done_future_is_final served_once); [reflexivity|discriminate].
Defined.

(** X7: in every run, when the task call a worker is awaiting ends by
    [CancelledError] or by another exception that is not an [Exception],
    the worker ends (returning for [CancelledError], raising otherwise)
    although the queue may still be running: the queue, the futures and
    the [running] flag are left as they are, and the task's future, which
    was pending, is still pending after the step. *)
Theorem task_base_exception_ends_worker evs w t client now e :
  let s := run init evs in
  tasks s !! w = Some (AwaitTask t) ->
  run_task client now (call t) = Raise e ->
  is_Exception e = false ->
  let s' := step s (Worker w (Task_returns client now)) in
  tasks s' !! w
    = Some (Done (if is_CancelledError e then Return () else Raise e))
  /\ futures s' = futures s
  /\ queue s' = queue s
  /\ running s' = running s
  /\ futures s' !! future t = Some Pending.
Proof.
  intros s Hw Hrun He s'. pose proof (sound_run evs) as Hs. fold s in Hs.
  apply (sound_worker s w _ Hw) in Hs.
  destruct (consistent_head _ _ _ Hs) as (Hp & _ & n & Hn & _).
  assert (w < length (tasks s))%nat by (by eapply lookup_lt_Some).
  unfold s'. cbn [step]. rewrite Hw. cbn [resume]. rewrite Hrun.
  unfold after_task. rewrite (settle_pending t _ s n) by done. rewrite He.
  destruct (is_CancelledError e); rewrite ?He;
    cbn [tasks futures queue running with_tasks with_unfinished_tasks];
    by rewrite list_lookup_insert_eq.
Qed.

Lemma task_base_exception_ends_worker_example :
  let s' := step busy (Worker 0 (Task_returns cancelled_client example_now)) in
  tasks s' = [Done (Return ())] /\ running s' = true
  /\ futures s' !! 0%nat = Some Pending.
Proof.
  destruct (task_base_exception_ends_worker
              [Call_start; Client_started 0 (Return ());
               Call_enqueue (get_channel_id "a");
               Call_enqueue (get_channel_id "b");
               Call_enqueue (get_today_messages_by_id 5);
               Worker 0 Run]
              0 {| call := get_channel_id "a"; future := 0 |}
              cancelled_client example_now CancelledError)
    as (Ht & Hf & _ & Hr & _); [reflexivity|reflexivity|reflexivity|].
  intros s'. split; [reflexivity|]. split; [exact Hr|reflexivity].
Defined.

(** *** One worker at a time *)

Lemma settle_frame t o s :
  running (settle t o s).1 = running s
  /\ worker_task (settle t o s).1 = worker_task s
  /\ starting (settle t o s).1 = starting s
  /\ tasks (settle t o s).1 = tasks s
  /\ (history (settle t o s).1 = history s
      \/ history (settle t o s).1 = history s ++ [Resolved (future t)]).
Proof.
  unfold settle, set_result, set_exception, task_done.
  destruct o as [v|e]; [|destruct (is_Exception e)];
    destruct (futures s !! future t) as [[| |]|] eqn:Hl;
    simpl; rewrite ?Hl; simpl; destruct (unfinished_tasks s); simpl;
    repeat split; auto.
Qed.

Lemma get_item_frame s :
  running (get_item s).1 = running s
  /\ worker_task (get_item s).1 = worker_task s
  /\ starting (get_item s).1 = starting s
  /\ tasks (get_item s).1 = tasks s.
Proof. unfold get_item. by destruct (queue s). Qed.

Lemma loop_head_control s :
  running (loop_head s).1 = running s
  /\ worker_task (loop_head s).1 = worker_task s
  /\ starting (loop_head s).1 = starting s
  /\ tasks (loop_head s).1 = tasks s.
Proof.
  destruct (get_item_frame s) as (G1 & G2 & G3 & G4).
  unfold loop_head. destruct (running s) eqn:Hr; cbn [negb fst]; [|done].
  destruct (connected s); cbn [negb fst]; done.
Qed.

Lemma after_task_frame t o s :
  running (after_task t o s).1 = running s
  /\ worker_task (after_task t o s).1 = worker_task s
  /\ starting (after_task t o s).1 = starting s
  /\ tasks (after_task t o s).1 = tasks s.
Proof.
  destruct (settle_frame t o s) as (H1 & H2 & H3 & H4 & _).
  unfold after_task. destruct (settle t o s) as [s' r]. cbn [fst] in *.
  destruct (loop_head_control s') as (L1 & L2 & L3 & L4).
  assert (running (loop_head s').1 = running s
          /\ worker_task (loop_head s').1 = worker_task s
          /\ starting (loop_head s').1 = starting s
          /\ tasks (loop_head s').1 = tasks s) as Hloop
    by (repeat split; congruence).
  destruct r as [[]|e]; [done|].
  destruct (is_CancelledError e); [done|]. by destruct (is_Exception e).
Qed.

Lemma resume_frame pc i s :
  running (resume pc i s).1 = running s
  /\ worker_task (resume pc i s).1 = worker_task s
  /\ starting (resume pc i s).1 = starting s
  /\ tasks (resume pc i s).1 = tasks s.
Proof.
  destruct pc, i; cbn [resume fst]; try done.
  - apply loop_head_control.
  - unfold after_connect. destruct r as [[]|e].
    + apply (get_item_frame (with_connected true s)).
    + destruct (is_TimeoutError e); [done|]. by destruct (is_Exception e).
  - apply loop_head_control.
  - apply get_item_frame.
  - apply after_task_frame.
Qed.

Lemma resume_ended pc i s : ended pc = true -> resume pc i s = (s, pc).
Proof. destruct pc; [done..|]. by destruct i. Qed.

Lemma in_flight_ended ws :
  (forall w pc, ws !! w = Some pc -> ended pc = true) -> in_flight ws = [].
Proof.
  induction ws as [|pc ws IH]; intros Hall; [done|].
  rewrite in_flight_cons, IH.
  - pose proof (Hall 0%nat pc eq_refl). by destruct pc.
  - intros w pc' Hw. by apply (Hall (S w)).
Qed.

(** When every worker but [w] has ended, what is in flight is what [w]
    executes. *)
Lemma in_flight_only ws w pc :
  (w < length ws)%nat ->
  (forall w' pc', ws !! w' = Some pc' -> w' <> w -> ended pc' = true) ->
  in_flight (<[w := pc]> ws) = executing pc.
Proof.
  revert w. induction ws as [|pc0 ws IH]; intros w Hw Hall; [simpl in Hw; lia|].
  destruct w as [|w]; cbn [list_insert insert]; rewrite in_flight_cons.
  - rewrite in_flight_ended; [by rewrite app_nil_r|].
    intros w' pc' Hw'. by apply (Hall (S w')).
  - rewrite IH.
    + assert (ended pc0 = true) by (apply (Hall 0%nat); [done|lia]).
      by destruct pc0.
    + simpl in Hw. lia.
    + intros w' pc' Hw' Hne. apply (Hall (S w')); [done|lia].
Qed.

Lemma single_worker_in_flight s w pc :
  single_worker s -> tasks s !! w = Some pc -> ended pc = false ->
  worker_task s = Some w /\ running s = true
  /\ forall pc', in_flight (<[w := pc']> (tasks s)) = executing pc'.
Proof.
  intros (_ & Hii & Hiii) Hw Hlive.
  assert (worker_task s = Some w) as Hwt.
  { destruct (decide (worker_task s = Some w)) as [|Hne]; [done|].
    pose proof (Hii w pc Hw Hne). congruence. }
  split; [done|]. split.
  - destruct (running s) eqn:Hr; [done|].
    pose proof (Hiii eq_refl w pc Hw). congruence.
  - intros pc'. apply in_flight_only; [by eapply lookup_lt_Some|].
    intros w' pc'' Hw' Hne. apply (Hii w' pc'' Hw'). congruence.
Qed.

Lemma single_worker_control s s' :
  running s' = running s -> worker_task s' = worker_task s ->
  starting s' = starting s -> tasks s' = tasks s ->
  single_worker s -> single_worker s'.
Proof. unfold single_worker. intros -> -> -> ->. done. Qed.

Lemma single_worker_resumed s w pc pc' :
  single_worker s -> tasks s !! w = Some pc ->
  (ended pc = true -> pc' = pc) ->
  single_worker (with_tasks (<[w := pc']> (tasks s)) s).
Proof.
  intros (Hi & Hii & Hiii) Hw Hsame.
  assert (w < length (tasks s))%nat by (by eapply lookup_lt_Some).
  split; [done|]. split.
  - intros w' pc''. cbn [tasks with_tasks worker_task]. intros Hw' Hne.
    destruct (decide (w' = w)) as [->|Hnw].
    + rewrite list_lookup_insert_eq in Hw' by done. injection Hw' as <-.
      pose proof (Hii w pc Hw Hne) as He. by rewrite (Hsame He).
    + rewrite list_lookup_insert_ne in Hw' by done. by eapply Hii.
  - cbn [running tasks with_tasks]. intros Hr w' pc'' Hw'.
    destruct (decide (w' = w)) as [->|Hnw].
    + rewrite list_lookup_insert_eq in Hw' by done. injection Hw' as <-.
      pose proof (Hiii Hr w pc Hw) as He. by rewrite (Hsame He).
    + rewrite list_lookup_insert_ne in Hw' by done. by eapply Hiii.
Qed.

Lemma stop_cancel_single s : single_worker s -> single_worker (stop_cancel s).
Proof.
  intros Hs. pose proof Hs as (Hi & Hii & Hiii).
  destruct (running s) eqn:Hr; [|unfold stop_cancel; by rewrite Hr].
  assert (forall w pc, tasks s !! w = Some pc -> worker_task s <> Some w ->
            ended pc = true) as Hothers by done.
  destruct (worker_task s) as [w|] eqn:Hwt.
  - destruct (tasks s !! w) as [pc|] eqn:Hw.
    + destruct (stop_cancel_spec s w pc Hr Hwt Hw) as (n & pc' & -> & He & _).
      assert (w < length (tasks s))%nat by (by eapply lookup_lt_Some).
      assert (forall w' pc'', <[w := pc']> (tasks s) !! w' = Some pc'' ->
                ended pc'' = true) as Hall.
      { intros w' pc'' Hw'. destruct (decide (w' = w)) as [->|Hne].
        - rewrite list_lookup_insert_eq in Hw' by done. by injection Hw' as <-.
        - rewrite list_lookup_insert_ne in Hw' by done.
          apply (Hothers w' pc'' Hw'). congruence. }
      split; [done|]. split; [|done]. intros w' pc'' Hw' _. by eapply Hall.
    + unfold stop_cancel. rewrite Hr. cbn [negb worker_task with_running tasks].
      rewrite Hwt, Hw.
      assert (forall w' pc'', tasks s !! w' = Some pc'' -> ended pc'' = true).
      { intros w' pc'' Hw'. apply (Hothers w' pc'' Hw'). congruence. }
      split; [done|]. split; [|done]. intros w' pc'' Hw' _. eauto.
  - unfold stop_cancel. rewrite Hr. cbn [negb worker_task with_running].
    rewrite Hwt.
    assert (forall w' pc'', tasks s !! w' = Some pc'' -> ended pc'' = true).
    { intros w' pc'' Hw'. by apply (Hothers w' pc'' Hw'). }
    split; [done|]. split; [|done]. intros w' pc'' Hw' _. eauto.
Qed.

Lemma start_finish_single s :
  single_worker s -> running s = false -> starting s = [] ->
  single_worker (start_finish s).
Proof.
  intros (Hi & Hii & Hiii) Hr Hst. unfold start_finish. split; [done|].
  split; [|done]. cbn [tasks worker_task with_tasks with_worker_task].
  intros w pc Hw Hne. destruct (decide (w < length (tasks s))%nat).
  - rewrite lookup_app_l in Hw by done. by eapply Hiii.
  - rewrite lookup_app_r in Hw by lia.
    destruct (w - length (tasks s))%nat as [|k] eqn:Hk; [|done].
    exfalso. apply Hne. f_equal. lia.
Qed.

Lemma single_worker_suspended s caller :
  single_worker s -> running s = false ->
  single_worker (with_starting (starting s ++ [caller]) s).
Proof. intros (Hi & Hii & Hiii) Hr. split; [done|]. done. Qed.

Lemma step_single s ev :
  single_worker s -> (length (starting s) <= 1)%nat ->
  single_worker (step s ev).
Proof.
  intros Hs Hlen.
  destruct ev as [| |c|k r| |w i]; cbn [step].
  - destruct (running s) eqn:Hr; [done|]. by apply single_worker_suspended.
  - by apply stop_cancel_single.
  - destruct (running s) eqn:Hr; cbn [negb].
    + by apply (single_worker_control s).
    + by apply single_worker_suspended.
  - destruct (starting s !! k) as [caller|] eqn:Hk; [|done].
    assert (starting s = [caller] /\ k = 0%nat) as [Hst ->].
    { destruct (starting s) as [|c0 [|c1 l]]; [done| |simpl in Hlen; lia].
      destruct k; [by injection Hk as ->|done]. }
    assert (running s = false) as Hr.
    { destruct Hs as (Hi & _). apply Hi. by rewrite Hst. }
    set (s1 := with_starting (delete 0%nat (starting s)) s).
    assert (starting s1 = []) as Hst1 by (unfold s1; by rewrite Hst).
    assert (single_worker s1) as Hs1.
    { destruct Hs as (Hi & Hii & Hiii). split; [by rewrite Hst1|]. done. }
    destruct r as [[]|e]; [|done].
    assert (single_worker (start_finish s1)) as Hs2
      by by apply start_finish_single.
    destruct caller; [|done]. by apply (single_worker_control (start_finish s1)).
  - by apply (single_worker_control s).
  - destruct (tasks s !! w) as [pc|] eqn:Hw; [|done].
    destruct (resume_frame pc i s) as (H1 & H2 & H3 & H4).
    pose proof (resume_ended pc i s) as Hend.
    destruct (resume pc i s) as [s' pc']. cbn [fst] in *.
    apply (single_worker_control (with_tasks (<[w := pc']> (tasks s)) s));
      cbn [running worker_task starting tasks with_tasks]; try done.
    + by rewrite H4.
    + apply (single_worker_resumed s w pc pc' Hs Hw).
      intros He. specialize (Hend He). by injection Hend.
Qed.

Lemma in_order_history live s s' :
  gots (history s') = gots (history s) ->
  resolutions (history s') = resolutions (history s) ->
  in_order live s -> in_order live s'.
Proof. unfold in_order. by intros -> ->. Qed.

Lemma get_item_in_order s :
  in_order [] s -> in_order (executing (get_item s).2) (get_item s).1.
Proof.
  intros (finished & Hg & Hr). unfold get_item.
  destruct (queue s) as [|t q]; cbn [fst snd executing].
  - by exists finished.
  - exists finished. cbn [history observe with_queue].
    rewrite gots_snoc, resolutions_snoc, app_nil_r, Hg, app_nil_r. done.
Qed.

Lemma loop_head_in_order s :
  in_order [] s -> in_order (executing (loop_head s).2) (loop_head s).1.
Proof.
  intros Ho. unfold loop_head.
  destruct (running s); [|done]. destruct (connected s); [|done].
  by apply get_item_in_order.
Qed.

Lemma settle_in_order t o s :
  in_order [future t] s -> in_order [] (settle t o s).1.
Proof.
  intros (finished & Hg & Hr).
  destruct (settle_frame t o s) as (_ & _ & _ & _ & [Hh|Hh]);
    exists (finished ++ [future t]); rewrite Hh, ?gots_snoc, ?resolutions_snoc,
      ?app_nil_r.
  - split; [done|]. by apply sublist_inserts_r.
  - split; [done|]. by apply sublist_app.
Qed.

Lemma after_task_in_order t o s :
  in_order [future t] s ->
  in_order (executing (after_task t o s).2) (after_task t o s).1.
Proof.
  intros Ho. apply (settle_in_order t o) in Ho.
  unfold after_task. destruct (settle t o s) as [s' r]. cbn [fst] in *.
  pose proof (loop_head_in_order s' Ho).
  destruct r as [[]|e]; [done|].
  destruct (is_CancelledError e); [done|]. by destruct (is_Exception e).
Qed.

Lemma resume_in_order pc i s :
  in_order (executing pc) s ->
  in_order (executing (resume pc i s).2) (resume pc i s).1.
Proof.
  intros Ho. destruct pc, i; cbn [resume fst snd]; try done.
  - by apply loop_head_in_order.
  - unfold after_connect. destruct r as [[]|e].
    + by apply (get_item_in_order (with_connected true s)).
    + destruct (is_TimeoutError e); [done|]. by destruct (is_Exception e).
  - by apply loop_head_in_order.
  - by apply get_item_in_order.
  - by apply after_task_in_order.
Qed.

Lemma cancel_in_order pc s :
  in_order (executing pc) s ->
  in_order (executing (cancel pc s).2) (cancel pc s).1.
Proof.
  intros Ho. destruct pc; cbn [cancel fst snd]; try done.
  by apply after_task_in_order.
Qed.

(** What the worker named by [worker_task] executes is all that is in
    flight. *)
Lemma single_worker_live s w pc :
  single_worker s -> worker_task s = Some w -> tasks s !! w = Some pc ->
  in_flight (tasks s) = executing pc
  /\ forall pc', in_flight (<[w := pc']> (tasks s)) = executing pc'.
Proof.
  intros (_ & Hii & _) Hwt Hw.
  assert (forall pc', in_flight (<[w := pc']> (tasks s)) = executing pc') as H.
  { intros pc'. apply in_flight_only; [by eapply lookup_lt_Some|].
    intros w' pc'' Hw' Hne. apply (Hii w' pc'' Hw'). congruence. }
  split; [|done]. rewrite <- (H pc). by rewrite list_insert_id.
Qed.

Lemma stop_cancel_in_order s :
  single_worker s -> in_order (in_flight (tasks s)) s ->
  in_order (in_flight (tasks (stop_cancel s))) (stop_cancel s).
Proof.
  intros Hs Ho. unfold stop_cancel. destruct (running s); [|done].
  cbn [negb worker_task with_running tasks].
  destruct (worker_task s) as [w|] eqn:Hwt; [|done].
  destruct (tasks s !! w) as [pc|] eqn:Hw; [|done].
  destruct (single_worker_live s w pc Hs Hwt Hw) as [Hlive Hnext].
  rewrite Hlive in Ho.
  pose proof (cancel_in_order pc (with_running false s) Ho) as Hc.
  pose proof (cancel_consistent pc [] (with_running false s)) as Ht.
  assert (tasks (cancel pc (with_running false s)).1 = tasks s) as Htasks.
  { destruct pc; cbn [cancel fst]; try done.
    by destruct (after_task_frame t (Raise CancelledError)
                   (with_running false s)) as (_ & _ & _ & ->). }
  destruct (cancel pc (with_running false s)) as [s2 pc']. cbn [fst snd] in *.
  cbn [tasks with_tasks]. rewrite Htasks, Hnext. done.
Qed.

Lemma step_in_order s ev :
  single_worker s -> in_order (in_flight (tasks s)) s ->
  in_order (in_flight (tasks (step s ev))) (step s ev).
Proof.
  intros Hs Ho.
  assert (forall c s0, in_order (in_flight (tasks s0)) s0 ->
            in_order (in_flight (tasks (put c s0))) (put c s0)) as Hput.
  { intros c s0. apply in_order_history; unfold put;
      cbn [history observe with_unfinished_tasks with_queue with_futures];
      by rewrite ?gots_snoc, ?resolutions_snoc, app_nil_r. }
  destruct ev as [| |c|k r| |w i]; cbn [step].
  - by destruct (running s).
  - by apply stop_cancel_in_order.
  - destruct (running s); cbn [negb]; [by apply Hput|done].
  - destruct (starting s !! k) as [caller|]; [|done].
    destruct r as [[]|e]; [|done].
    assert (in_order
              (in_flight (tasks (start_finish
                                   (with_starting (delete k (starting s)) s))))
              (start_finish (with_starting (delete k (starting s)) s))) as H2.
    { unfold start_finish. cbn [tasks with_tasks with_starting].
      rewrite in_flight_app. cbn. by rewrite app_nil_r. }
    destruct caller; [by apply Hput|done].
  - done.
  - destruct (tasks s !! w) as [pc|] eqn:Hw; [|done].
    destruct (ended pc) eqn:He.
    + rewrite (resume_ended pc i s He). cbn [tasks with_tasks].
      by rewrite list_insert_id.
    + destruct (single_worker_in_flight s w pc Hs Hw He) as (Hwt & _ & Hnext).
      destruct (single_worker_live s w pc Hs Hwt Hw) as [Hlive _].
      rewrite Hlive in Ho.
      pose proof (resume_in_order pc i s Ho) as Hr.
      destruct (resume_frame pc i s) as (_ & _ & _ & Ht).
      destruct (resume pc i s) as [s' pc']. cbn [fst snd] in *.
      cbn [tasks with_tasks]. rewrite Ht, Hnext. done.
Qed.

Lemma run_single_worker evs s :
  single_worker s -> in_order (in_flight (tasks s)) s ->
  serial_starts s evs ->
  single_worker (run s evs) /\ in_order (in_flight (tasks (run s evs))) (run s evs).
Proof.
  revert s. induction evs as [|ev evs IH]; intros s Hs Ho [Hlen Hrest]; [done|].
  apply IH; [by apply step_single|by apply step_in_order|done].
Qed.

Lemma init_single_worker :
  single_worker init /\ in_order (in_flight (tasks init)) init.
Proof.
  split.
  - split; [done|]. split; by intros.
  - exists []. split; [done|]. apply sublist_nil_l.
Qed.

(** X8: as long as no two calls of [start()] overlap, at most one task is
    being executed at any moment, and it is executed by the worker that
    [worker_task] names; every other worker has ended. *)
Theorem one_task_at_a_time evs :
  serial_starts init evs ->
  let s := run init evs in
  (length (in_flight (tasks s)) <= 1)%nat
  /\ (forall w t, tasks s !! w = Some (AwaitTask t) ->
        worker_task s = Some w /\ in_flight (tasks s) = [future t]).
Proof.
  intros Hserial s.
  destruct init_single_worker as [Hs0 Ho0].
  destruct (run_single_worker evs init Hs0 Ho0 Hserial) as [Hs _]. fold s in Hs.
  assert (forall w t, tasks s !! w = Some (AwaitTask t) ->
            worker_task s = Some w /\ in_flight (tasks s) = [future t]) as H.
  { intros w t Hw.
    destruct (single_worker_in_flight s w _ Hs Hw eq_refl) as (Hwt & _ & _).
    split; [done|]. by destruct (single_worker_live s w _ Hs Hwt Hw) as [-> _]. }
  split; [|done].
  destruct (worker_task s) as [w|] eqn:Hwt.
  - destruct (tasks s !! w) as [pc|] eqn:Hw.
    + destruct (single_worker_live s w pc Hs Hwt Hw) as [-> _].
      destruct pc; simpl; lia.
    + rewrite in_flight_ended; [simpl; lia|].
      intros w' pc' Hw'. destruct Hs as (_ & Hii & _).
      apply (Hii w' pc' Hw'). rewrite Hwt. intros [= <-]. congruence.
  - rewrite in_flight_ended; [simpl; lia|].
    intros w' pc' Hw'. destruct Hs as (_ & Hii & _).
    apply (Hii w' pc' Hw'). by rewrite Hwt.
Qed.

Lemma one_task_at_a_time_example :
  (length (in_flight (tasks (run init orderly_events))) <= 1)%nat.
Proof.
  apply (one_task_at_a_time orderly_events). vm_compute. repeat split; lia.
Defined.

(** X9: as long as no two calls of [start()] overlap, the futures are
    resolved in the order in which their tasks were submitted: the
    resolutions are, in order, among the futures put, and in fact among
    those of the tasks taken and no longer executed. A stop and a later
    start do not disturb the order. *)
Theorem resolved_in_order_of_submission evs :
  serial_starts init evs ->
  let s := run init evs in
  resolutions (history s) `sublist_of` puts (history s)
  /\ exists finished,
       gots (history s) = finished ++ in_flight (tasks s)
       /\ resolutions (history s) `sublist_of` finished.
Proof.
  intros Hserial s.
  destruct init_single_worker as [Hs0 Ho0].
  destruct (run_single_worker evs init Hs0 Ho0 Hserial) as [_ Ho]. fold s in Ho.
  split; [|done]. destruct Ho as (finished & Hg & Hr).
  pose proof (sound_run evs) as (Ha & _). fold s in Ha. cbn zeta in Ha.
  rewrite <- Ha, Hg, <- !app_assoc. by apply sublist_inserts_r.
Qed.

Lemma resolved_in_order_of_submission_example :
  let s := run init orderly_events in
  puts (history s) = [0; 1; 2; 3; 4]%nat
  /\ resolutions (history s) = [0; 1; 3]%nat
  /\ resolutions (history s) `sublist_of` puts (history s).
Proof.
  split; [reflexivity|]. split; [reflexivity|].
  apply (resolved_in_order_of_submission orderly_events).
  vm_compute. repeat split; lia.
Defined.

(** ** More on the task bodies *)

(** X10: when the iterator does not yield a message older than the
    cutoff it is run to its end, and if it then fails, its exception is
    what [_get_today_messages] raises, unchanged: the messages collected
    so far are not returned. *)
Theorem iterator_failure_is_raised client now cid cname e :
  let it := iter_messages client (channel_entity cid cname) 100 (now 2%nat) in
  Forall (fun m => now 0%nat - hours_24 <= msg_date m) (yielded it) ->
  failure it = Some e ->
  _get_today_messages client now cid cname = Raise e
  /\ run_task client now (Get_today_messages cid cname) = Raise e.
Proof.
  intros it Hall Hfail.
  assert (_get_today_messages client now cid cname = Raise e) as H.
  { rewrite _get_today_messages_spec. fold it.
    destruct (recent_all _ _ Hall) as [_ ->]. by rewrite Hfail. }
  split; [done|]. cbn [run_task]. by rewrite H.
Qed.

Lemma iterator_failure_is_raised_example :
  _get_today_messages failing_client example_now None (Some "news")
  = Raise (Exception "FloodWaitError" "wait 30 seconds").
Proof.
  apply (iterator_failure_is_raised failing_client example_now None
           (Some "news")); [|reflexivity].
  repeat constructor; vm_compute; discriminate.
Defined.

(** X11: a failure of the iterator that would come after a message older
    than the cutoff is never met: the loop has left the iterator before,
    and the call returns the messages collected. *)
Theorem failure_after_break_is_not_met client now cid cname pre old post e :
  let it := iter_messages client (channel_entity cid cname) 100 (now 2%nat) in
  yielded it = pre ++ old :: post ->
  Forall (fun m => now 0%nat - hours_24 <= msg_date m) pre ->
  msg_date old < now 0%nat - hours_24 ->
  failure it = Some e ->
  _get_today_messages client now cid cname
  = Return {| meta := {| channel_id := channel_entity cid cname;
                         date := now 1%nat |};
              messages := omap entry pre |}.
Proof.
  intros it Hy Hpre Hold _. rewrite _get_today_messages_spec.
  fold it. rewrite Hy.
  by destruct (recent_app_old _ _ _ post Hpre Hold) as [-> ->].
Qed.

Lemma failure_after_break_is_not_met_example :
  exists r,
    _get_today_messages
      {| iter_messages := fun _ _ _ =>
           {| yielded := scenario_messages ++ [scenario_old];
              failure := Some (Exception "FloodWaitError" "wait") |};
         get_entity := no_entity |}
      example_now None (Some "news") = Return r
    /\ length (messages r) = 2%nat.
Proof.
  eexists. split.
  - apply (failure_after_break_is_not_met _ example_now None (Some "news")
             scenario_messages scenario_old []
             (Exception "FloodWaitError" "wait")); [reflexivity| |reflexivity
             |reflexivity].
    repeat constructor; vm_compute; discriminate.
  - reflexivity.
Defined.

Lemma recent_descending cutoff ms :
  descending ms ->
  recent cutoff ms = filter (fun m => cutoff <= msg_date m) ms.
Proof.
  induction 1 as [|m ms Hms IH Hm]; [done|]. cbn [recent].
  destruct (msg_date m <? cutoff) eqn:Hold.
  - apply Z.ltb_lt in Hold. rewrite filter_cons_False by lia.
    clear IH Hms. induction Hm as [|m' ms' Hm' _ IH']; [done|].
    by rewrite filter_cons_False by lia.
  - apply Z.ltb_ge in Hold. rewrite filter_cons_True by done. by rewrite IH.
Qed.

(** X12: when the iterator yields its messages newest first, as the code
    relies on, the result holds exactly the yielded messages of the last
    24 hours that have a text, in the order of the iterator: none of them
    is lost to the early exit of the loop. *)
Theorem descending_dates_give_last_24_hours client now cid cname r :
  let it := iter_messages client (channel_entity cid cname) 100 (now 2%nat) in
  descending (yielded it) ->
  _get_today_messages client now cid cname = Return r ->
  messages r
  = omap entry (filter (fun m => now 0%nat - hours_24 <= msg_date m)
                  (yielded it))
  /\ (forall m t, m ∈ yielded it -> now 0%nat - hours_24 <= msg_date m ->
        msg_text m = Some t -> t <> "" ->
        {| id := msg_id m; text := t |} ∈ messages r).
Proof.
  intros it Hdesc Hr. rewrite _get_today_messages_spec in Hr. fold it in Hr.
  rewrite recent_descending in Hr by done.
  assert (messages r
          = omap entry (filter (fun m => now 0%nat - hours_24 <= msg_date m)
                          (yielded it))) as Hm.
  { destruct (if breaks _ _ then None else _); [done|]. by injection Hr as <-. }
  split; [done|]. intros m t Hin Hdate Ht Hne. rewrite Hm.
  apply list_elem_of_omap. exists m. split.
  - by apply list_elem_of_filter.
  - by apply entry_Some.
Qed.

Lemma descending_dates_give_last_24_hours_example :
  exists r,
    _get_today_messages scenario_client example_now None (Some "news")
      = Return r
    /\ {| id := 29; text := "an hour ago" |} ∈ messages r.
Proof.
  set (r := {| meta := {| channel_id := PyStr "news";
                          date := example_now 1%nat |};
               messages := [ {| id := 30; text := "newest" |};
                             {| id := 29; text := "an hour ago" |} ] |}).
  destruct (descending_dates_give_last_24_hours scenario_client example_now
              None (Some "news") r) as [_ Hin].
  - repeat constructor; vm_compute; discriminate.
  - reflexivity.
  - exists r. split; [reflexivity|].
    apply (Hin {| msg_id := 29; msg_text := Some "an hour ago";
                  msg_date := example_now 0%nat - hour |} "an hour ago").
    + apply list_elem_of_In. simpl. tauto.
    + vm_compute. discriminate.
    + reflexivity.
    + discriminate.
Defined.

(** ** More on [_get_channel_id] *)

(** X13: in every run, an [Exception] raised by [client.get_entity]
    while a worker executes a [_get_channel_id] task is what the task
    raises and what the future of that very task is set to, unchanged;
    [CancelledError] and other exceptions are raised by the task
    unchanged as well. *)
Theorem get_entity_error_reaches_the_caller evs w fut channel client now e :
  let s := run init evs in
  tasks s !! w = Some (AwaitTask {| call := Get_channel_id channel;
                                    future := fut |}) ->
  get_entity client channel = Raise e ->
  _get_channel_id client channel = Raise e
  /\ (is_Exception e = true ->
       futures (step s (Worker w (Task_returns client now))) !! fut
       = Some (Failure e)).
Proof.
  intros s Hw He.
  assert (_get_channel_id client channel = Raise e) as H.
  { unfold _get_channel_id. rewrite try_except_reraise, He. done. }
  split; [done|]. intros Hexc.
  destruct (task_returns_sets_future s w _ client now (sound_run evs) Hw)
    as [Hf _].
  cbn [future call run_task] in Hf. rewrite H in Hf.
  cbn [mbind outcome_bind delivered] in Hf. by rewrite Hexc in Hf.
Qed.

Lemma get_entity_error_reaches_the_caller_example :
  futures (step busy (Worker 0 (Task_returns entities_client example_now)))
    !! 0%nat
  = Some (Failure (Exception "ValueError" "no such entity")).
Proof.
  destruct (get_entity_error_reaches_the_caller
              [Call_start; Client_started 0 (Return ());
               Call_enqueue (get_channel_id "a");
               Call_enqueue (get_channel_id "b");
               Call_enqueue (get_today_messages_by_id 5);
               Worker 0 Run]
              0 0%nat "a" entities_client example_now
              (Exception "ValueError" "no such entity")) as [_ H];
    [reflexivity|reflexivity|].
  apply H. reflexivity.
Defined.

(** X14: a resolved entity that lacks the attribute [id] or the attribute
    [username] (a basic group has no [username]) makes [_get_channel_id]
    raise [AttributeError] for the first of the two that is missing,
    whether or not the entity is channel-like. *)
Theorem missing_attribute_is_raised client channel (e : entity) :
  get_entity client channel = Return e ->
  e !! "id" = None \/ e !! "username" = None ->
  _get_channel_id client channel
  = Raise (Exception "AttributeError"
             (if decide (e !! "id" = None) then "id" else "username")).
Proof.
  intros He Hmiss. unfold _get_channel_id.
  rewrite try_except_reraise, He. cbn [mbind outcome_bind]. unfold getattr.
  destruct (e !! "id") as [v|] eqn:Hid.
  - destruct Hmiss as [|Hu]; [done|]. rewrite Hu.
    cbn [mbind outcome_bind]. by rewrite decide_False.
  - cbn [mbind outcome_bind]. by rewrite decide_True.
Qed.

Lemma missing_attribute_is_raised_example :
  _get_channel_id odd_entities_client "friends"
  = Raise (Exception "AttributeError" "username").
Proof.
  apply (missing_attribute_is_raised odd_entities_client "friends" basic_group);
    [reflexivity|]. right. reflexivity.
Defined.

(** X15: on a channel-like entity whose id is a negative integer the text
    "-100" followed by the id is not a decimal literal, and
    [_get_channel_id] raises the [ValueError] of [int()]. *)
Theorem negative_id_is_rejected client channel (e : entity) n u :
  get_entity client channel = Return e ->
  e !! "id" = Some (PyInt n) ->
  n < 0 ->
  e !! "username" = Some u ->
  channel_like e = true ->
  _get_channel_id client channel
  = Raise (ValueError_int (String.append "-100" (str_of_int n))).
Proof.
  intros He Hid Hn Hu Hlike. unfold _get_channel_id.
  rewrite try_except_reraise, He. cbn [mbind outcome_bind]. unfold getattr.
  rewrite Hid, Hu. cbn [mbind outcome_bind]. fold (channel_like e).
  rewrite Hlike. cbn [py_str]. unfold str_of_int.
  assert ((n <? 0) = true) as -> by (by apply Z.ltb_lt).
  reflexivity.
Qed.

Lemma negative_id_is_rejected_example :
  _get_channel_id odd_entities_client "negative"
  = Raise (Exception "ValueError"
             "invalid literal for int() with base 10: -100-5").
Proof.
  apply (negative_id_is_rejected odd_entities_client "negative"
           negative_channel (-5) PyNone); try reflexivity.
Defined.

(** ** Outage and lazy start *)

Lemma failed_connects_leave_state s w errors :
  running s = true -> connected s = false ->
  tasks s !! w = Some (AwaitConnect 10) ->
  Forall (fun e => is_Exception e = true) errors ->
  run s (failed_connects w errors) = s.
Proof.
  intros Hr Hc Hw Herr. induction Herr as [|e errors He _ IH]; [done|].
  change (failed_connects w (e :: errors))
    with ([Worker w (Connect_returns (Raise e)); Worker w Slept]
            ++ failed_connects w errors).
  rewrite run_app.
  destruct (failed_connect_round s w e Hr Hc Hw He) as [_ ->]. done.
Qed.

(** X16: when the worker waits in the bounded connect with tasks in the
    queue, then after any number of failed connects the first connect that
    succeeds makes the worker take and execute the oldest queued task at
    once, the others staying queued in order and no future having been
    touched. *)
Theorem served_after_reconnect s w errors t q :
  running s = true ->
  connected s = false ->
  tasks s !! w = Some (AwaitConnect 10) ->
  Forall (fun e => is_Exception e = true) errors ->
  queue s = t :: q ->
  let s' := run s (failed_connects w errors
                     ++ [Worker w (Connect_returns (Return ()))]) in
  connected s' = true
  /\ tasks s' !! w = Some (AwaitTask t)
  /\ queue s' = q
  /\ futures s' = futures s.
Proof.
  intros Hr Hc Hw Herr Hq s'. unfold s'.
  rewrite run_app, failed_connects_leave_state by done.
  assert (w < length (tasks s))%nat by (by eapply lookup_lt_Some).
  unfold run. cbn [fold_left step]. rewrite Hw. cbn [resume after_connect].
  unfold get_item. cbn [queue with_connected]. rewrite Hq.
  cbn [connected tasks queue futures with_tasks observe with_queue
       with_connected].
  by rewrite list_lookup_insert_eq.
Qed.

Lemma served_after_reconnect_example :
  let s' := run outage (failed_connects 0 [TimeoutError; TimeoutError]
                          ++ [Worker 0 (Connect_returns (Return ()))]) in
  tasks s' = [AwaitTask {| call := get_channel_id "news"; future := 0 |}]
  /\ queue s' = [ {| call := get_channel_id "alice"; future := 1 |} ].
Proof.
  destruct (served_after_reconnect outage 0 [TimeoutError; TimeoutError]
              {| call := get_channel_id "news"; future := 0 |}
              [ {| call := get_channel_id "alice"; future := 1 |} ])
    as (_ & _ & Hq & _);
    [reflexivity|reflexivity|reflexivity|repeat constructor|reflexivity|].
  split; [reflexivity|exact Hq].
Defined.

Lemma with_starting_same s l : starting s = l -> with_starting l s = s.
Proof. intros <-. by destruct s. Qed.

(** X17: [_enqueue_task] on a queue that is not running (and that nobody
    is starting) starts it first: when [client.start()] returns, the
    queue is running with a new worker and the task is queued last with a
    new pending future. When [client.start()] raises, the call ends there:
    nothing is queued, no future is created and the queue is as before,
    not running. *)
Theorem enqueue_starts_a_stopped_queue s c e :
  running s = false ->
  starting s = [] ->
  let f := fresh (dom (futures s)) in
  let s' := run s [Call_enqueue c; Client_started 0 (Return ())] in
  futures s !! f = None
  /\ running s' = true
  /\ worker_task s' = Some (length (tasks s))
  /\ tasks s' = tasks s ++ [Created]
  /\ queue s' = queue s ++ [ {| call := c; future := f |} ]
  /\ futures s' = <[f := Pending]> (futures s)
  /\ run s [Call_enqueue c; Client_started 0 (Raise e)] = s.
Proof.
  intros Hr Hst f s'.
  split; [apply not_elem_of_dom, is_fresh|].
  unfold s', run. cbn [fold_left step]. rewrite Hr. cbn [negb].
  cbn [starting with_starting]. rewrite Hst. cbn [app lookup list_lookup delete
    list_delete].
  repeat split. rewrite <- Hst at 1. cbn [with_starting starting].
  apply (with_starting_same s). done.
Qed.

Lemma enqueue_starts_a_stopped_queue_example :
  let s' := run init [Call_enqueue (get_channel_id "news");
                      Client_started 0 (Return ())] in
  running s' = true
  /\ queue s' = [ {| call := get_channel_id "news"; future := 0 |} ]
  /\ tasks s' = [Created].
Proof.
  destruct (enqueue_starts_a_stopped_queue init (get_channel_id "news")
              TimeoutError) as (_ & Hr & _ & Ht & Hq & _);
    [reflexivity|reflexivity|].
  split; [exact Hr|]. split; [exact Hq|exact Ht].
Defined.
